(** * Spot catalog: a model of [main.go] and the properties of its handlers

    [main.go] serves a table of tourist spots over HTTP.  Every route
    handler is a short sequence of GORM calls on one SQLite table followed
    by a response.  The development below embeds

    - the [Spot] struct and the [spots] table with its primary key,
    - [strconv.Atoi], by which GORM tells a primary key from a condition,
    - the GORM calls the handlers make ([First], [Save], [Create],
      [Delete], [Updates], [Where]/[Order]/[Find]),
    - SQLite's [LIKE] operator, used by the search route,
    - the start-up of [main] and the seven route handlers of the engine on
      port 8080, and
    - the interleaving of the database calls of concurrently served
      requests,

    and then states and proves the properties of the catalog.

    Conventions of the model.
    - The table is a finite map from the primary key to the remaining
      columns: the key constraint of the [id] column holds by construction.
      Keys are the positive integers SQLite hands out.
    - A handler receives the [:id] path segment as text and hands it to
      GORM.  GORM reads a text that [strconv.Atoi] accepts as a primary
      key and takes any other text for the WHERE condition itself.  A
      condition that is a numeral is a constant of SQL; what the engine
      does with any other condition is a parameter of the model, [Engine],
      over which every statement is quantified.
    - [RecommendCount] is a Go [int]; its increment is computed modulo
      2^64 as on a 64-bit platform.
    - Text is a [string] of bytes.  [LIKE] reads it as SQLite does, one
      UTF-8 character at a time up to the first NUL byte, and folds the
      case of the letters A-Z only.
    - [serve] is one request served on its own.  [Concurrent] is the
      finer view in which the database calls of several requests
      alternate.
    - Apart from the length limit of a [LIKE] pattern, the limits of the
      storage engine (exhausted keys, the length of a statement) and its
      failures are not modelled: every other database call succeeds, as
      the handlers assume when they drop the error of every call but
      [First]. *)

From Stdlib Require Import ZArith NArith Ascii String.
From stdpp Require Import gmap strings list sorting.

Open Scope Z_scope.

(** ** Go [int] *)

Module GoInt.

Definition max_int : Z := 2 ^ 63 - 1.
Definition min_int : Z := - 2 ^ 63.

(** The values an [int] variable can hold. *)
Definition in_range (z : Z) : Prop := min_int <= z <= max_int.

(** Signed 64-bit wrap-around of an arithmetic result. *)
Definition wrap (z : Z) : Z := (z + 2 ^ 63) mod 2 ^ 64 - 2 ^ 63.

(** [x++] *)
Definition incr (z : Z) : Z := wrap (z + 1).

End GoInt.

(** ** [strconv.Atoi] *)

Module Strconv.

(** The value of a decimal digit. *)
Definition digit (c : ascii) : option Z :=
  let n := Z.of_nat (nat_of_ascii c) in
  if (48 <=? n) && (n <=? 57) then Some (n - 48) else None.

(** The value of a run of digits read after the value [acc]. *)
Fixpoint digits (acc : Z) (s : string) : option Z :=
  match s with
  | EmptyString => Some acc
  | String c s' =>
      match digit c with
      | Some d => digits (10 * acc + d) s'
      | None => None
      end
  end.

(** One digit or more. *)
Definition unsigned (s : string) : option Z :=
  match s with
  | EmptyString => None
  | String _ _ => digits 0 s
  end.

(** The value of a decimal numeral: an optional sign and one digit or
    more. *)
Definition numeral (s : string) : option Z :=
  match s with
  | EmptyString => None
  | String c s' =>
      if Ascii.eqb c "-" then Z.opp <$> unsigned s'
      else if Ascii.eqb c "+" then unsigned s'
      else unsigned s
  end.

(** [strconv.Atoi]: the value of a decimal numeral that fits an [int];
    [None] stands for both of its errors, of syntax and of range. *)
Definition Atoi (s : string) : option Z :=
  match numeral s with
  | Some z =>
      if (GoInt.min_int <=? z) && (z <=? GoInt.max_int) then Some z else None
  | None => None
  end.

End Strconv.

(** ** Data model *)

(** [type Spot struct] *)
Record Spot : Type := mkSpot {
  ID : positive;
  Name : string;
  Description : string;
  Ticket : string;
  Transport : string;
  RecommendCount : Z;
  ImageURL : string
}.

(** The columns of one row of the [spots] table other than its key. *)
Record Row : Type := mkRow {
  name : string;
  description : string;
  ticket : string;
  transport : string;
  recommend_count : Z;
  image_url : string
}.

(** The form fields a handler reads with [c.PostForm]; a field that is
    absent from the request reads as the empty string. *)
Record Form : Type := mkForm {
  form_name : string;
  form_description : string;
  form_ticket : string;
  form_transport : string;
  form_imageurl : string
}.

(** The database: the rows by primary key, and the largest key handed out
    so far (SQLite's sequence for an AUTOINCREMENT key; 0 before the first
    insertion). *)
Record DB : Type := mkDB {
  rows : gmap positive Row;
  seq : N
}.

Definition to_spot (id : positive) (r : Row) : Spot :=
  mkSpot id (name r) (description r) (ticket r) (transport r)
         (recommend_count r) (image_url r).

Definition to_row (s : Spot) : Row :=
  mkRow (Name s) (Description s) (Ticket s) (Transport s)
        (RecommendCount s) (ImageURL s).

(** What the SQL engine does with a WHERE condition given as text, for
    the texts the model does not read itself.  Such a text can hold a
    whole query, so nothing is assumed of the answers:
    [first_where] is the record GORM scans from
    [SELECT * FROM spots WHERE <text> ORDER BY id LIMIT 1], [None] when
    there is no row or the text is no SQL; [delete_where] is the database
    after [DELETE FROM spots WHERE <text>]. *)
Record Engine : Type := mkEngine {
  first_where : string -> DB -> option Spot;
  delete_where : string -> DB -> DB
}.

(** ** SQLite [LIKE] *)

Module Sqlite.

Definition byte (a : ascii) : N := N_of_ascii a.

(** The table [sqlite3Utf8Trans1]: the payload bits of a first byte from
    0xC0 up. *)
Definition trans1 (b : N) : N :=
  if (b <? 0xE0)%N then N.land b 0x1F
  else if (b <? 0xF0)%N then N.land b 0x0F
  else if (b <? 0xF8)%N then N.land b 0x07
  else if (b <? 0xFC)%N then N.land b 0x03
  else if (b <? 0xFE)%N then N.land b 0x01
  else 0%N.

Definition is_continuation (b : N) : bool := (N.land b 0xC0 =? 0x80)%N.

(** One more continuation byte, in 32-bit unsigned arithmetic. *)
Definition push (c b : N) : N :=
  ((N.shiftl c 6 + N.land b 0x3F) mod 2 ^ 32)%N.

(** The character of a sequence that began with a byte from 0xC0 up:
    U+FFFD for an overlong form, a surrogate, 0xFFFE and 0xFFFF. *)
Definition finish (c : N) : N :=
  if ((c <? 0x80) || (N.land c 0xFFFFF800 =? 0xD800)
      || (N.land c 0xFFFFFFFE =? 0xFFFE))%N
  then 0xFFFD%N else c.

(** The characters [sqlite3Utf8Read] reads from a text, call after call,
    up to its end or its first NUL byte.  [pending] is the value of a
    sequence whose continuation bytes are being read. *)
Fixpoint read (pending : option N) (s : string) : list N :=
  match s with
  | EmptyString =>
      match pending with Some c => [finish c] | None => [] end
  | String a s' =>
      let b := byte a in
      match pending with
      | Some c =>
          if (b =? 0)%N then [finish c]
          else if is_continuation b then read (Some (push c b)) s'
          else if (b <? 0xC0)%N then finish c :: b :: read None s'
          else finish c :: read (Some (trans1 b)) s'
      | None =>
          if (b =? 0)%N then []
          else if (b <? 0xC0)%N then b :: read None s'
          else read (Some (trans1 b)) s'
      end
  end.

Definition chars (s : string) : list N := read None s.

(** [sqlite3Tolower] on a character below 0x80. *)
Definition lower (c : N) : N :=
  if ((65 <=? c) && (c <=? 90))%N then (c + 32)%N else c.

(** A pattern character matches a character of the text: the same
    character, or the same letter of A-Z in the other case. *)
Definition same_char (c d : N) : bool :=
  ((c =? d) || ((c <? 0x80) && (d <? 0x80) && (lower c =? lower d)))%N.

Definition percent : N := 37%N.
Definition underscore : N := 95%N.

(** [test] holds of [s] or of what is left of [s] after dropping some
    of its first characters. *)
Fixpoint any_suffix (test : list N -> bool) (s : list N) : bool :=
  test s ||
  match s with
  | [] => false
  | _ :: s' => any_suffix test s'
  end.

(** [patternCompare] for [LIKE] without an ESCAPE clause: [%] matches
    any run of characters, [_] any one character, every other character
    itself up to the case of A-Z. *)
Fixpoint like_chars (pat s : list N) {struct pat} : bool :=
  match pat with
  | [] => match s with [] => true | _ :: _ => false end
  | c :: pat' =>
      if (c =? percent)%N then any_suffix (like_chars pat') s
      else
        match s with
        | [] => false
        | d :: s' =>
            ((c =? underscore)%N || same_char c d) && like_chars pat' s'
        end
  end.

(** [s LIKE pat] *)
Definition like (pat s : string) : bool := like_chars (chars pat) (chars s).

(** [SQLITE_MAX_LIKE_PATTERN_LENGTH]: a pattern of more bytes makes
    [LIKE] fail with "LIKE or GLOB pattern too complex". *)
Definition too_complex (pat : string) : bool :=
  (50000 <? N.of_nat (String.length pat))%N.

End Sqlite.

(** ** GORM calls on the [spots] table *)

Module Gorm.

(** The result order of [Order("recommend_count desc, id asc")]. *)
Definition spot_le (a b : Spot) : Prop :=
  RecommendCount b < RecommendCount a
  \/ (RecommendCount a = RecommendCount b /\ (ID a <= ID b)%positive).

#[global] Instance spot_le_dec a b : Decision (spot_le a b).
Proof. unfold spot_le. apply _. Defined.

(** All rows of the table, as [Spot] values. *)
Definition scan (db : DB) : list Spot :=
  (fun kr => to_spot (fst kr) (snd kr)) <$> map_to_list (rows db).

(** [db.Where(cond).Order("recommend_count desc, id asc").Find(&spots)] *)
Definition Find (cond : Spot -> bool) (db : DB) : list Spot :=
  merge_sort spot_le (filter (fun s => cond s = true) (scan db)).

(** What [Statement.BuildCondition] makes of a text given as the only
    condition: a text [strconv.Atoi] reads stands for [spots.id = <text>],
    the empty text for no WHERE clause, any other text is the condition
    itself. *)
Inductive Condition : Type :=
  | PrimaryKey (z : Z)
  | NoCondition
  | Where (sql : string).

Definition BuildCondition (text : string) : Condition :=
  match Strconv.Atoi text with
  | Some z => PrimaryKey z
  | None => if String.eqb text "" then NoCondition else Where text
  end.

(** The row whose key is the integer [z]. *)
Definition by_key (z : Z) (db : DB) : option Spot :=
  match z with
  | Zpos p => to_spot p <$> rows db !! p
  | _ => None
  end.

Definition id_le (a b : Spot) : Prop := (ID a <= ID b)%positive.

#[global] Instance id_le_dec a b : Decision (id_le a b).
Proof. unfold id_le. apply _. Defined.

(** [ORDER BY spots.id LIMIT 1] over the whole table. *)
Definition first_row (db : DB) : option Spot :=
  head (merge_sort id_le (scan db)).

(** [db.First(&spot, id)]: the first row in key order that meets the
    condition built from the text, or an error ([None]).  A condition
    that is a numeral is true of every row unless the numeral is zero. *)
Definition First (engine : Engine) (text : string) (db : DB) : option Spot :=
  match BuildCondition text with
  | PrimaryKey z => by_key z db
  | NoCondition => first_row db
  | Where sql =>
      match Strconv.numeral sql with
      | Some z => if z =? 0 then None else first_row db
      | None => first_where engine sql db
      end
  end.

(** The largest key in the table, 0 when it is empty. *)
Definition max_key (m : gmap positive Row) : N :=
  map_fold (fun k _ acc => N.max (Npos k) acc) 0%N m.

(** The key SQLite gives to the next inserted row. *)
Definition next_id (db : DB) : positive :=
  N.succ_pos (N.max (seq db) (max_key (rows db))).

(** [db.Create(&Spot{...})] with a zero [ID]: insert under a new key. *)
Definition Create (r : Row) (db : DB) : DB :=
  let id := next_id db in
  mkDB (<[id := r]> (rows db)) (Npos id).

(** [db.Save(&spot)] with a non-zero [ID]: UPDATE every column of the
    row with that key; when no row was updated, insert the row. *)
Definition Save (s : Spot) (db : DB) : DB :=
  match rows db !! ID s with
  | Some _ => mkDB (<[ID s := to_row s]> (rows db)) (seq db)
  | None => mkDB (<[ID s := to_row s]> (rows db)) (N.max (seq db) (Npos (ID s)))
  end.

(** [db.Delete(&Spot{}, id)]: the rows that meet the condition built
    from the text go; without a condition GORM refuses to delete. *)
Definition Delete (engine : Engine) (text : string) (db : DB) : DB :=
  match BuildCondition text with
  | PrimaryKey (Zpos p) => mkDB (delete p (rows db)) (seq db)
  | PrimaryKey _ => db
  | NoCondition => db
  | Where sql =>
      match Strconv.numeral sql with
      | Some z => if z =? 0 then db else mkDB ∅ (seq db)
      | None => delete_where engine sql db
      end
  end.

(** [db.Where("id IN ?", ids).Delete(&Spot{})] *)
Definition DeleteIn (ids : list positive) (db : DB) : DB :=
  mkDB (filter (fun kr => fst kr ∉ ids) (rows db)) (seq db).

(** One column of [Updates(Spot{...})]: a zero value (the empty string)
    is skipped, any other value is assigned. *)
Definition assign (new old : string) : string :=
  if String.eqb new "" then old else new.

(** The row [Updates(Spot{Name: .., Description: .., Ticket: ..,
    Transport: .., ImageURL: ..})] leaves in place of [r]: the struct's
    [ID] and [RecommendCount] are zero and therefore skipped. *)
Definition updated (f : Form) (r : Row) : Row :=
  mkRow (assign (form_name f) (name r))
        (assign (form_description f) (description r))
        (assign (form_ticket f) (ticket r))
        (assign (form_transport f) (transport r))
        (recommend_count r)
        (assign (form_imageurl f) (image_url r)).

(** [db.Model(&spot).Updates(Spot{...})]: an UPDATE of the row with the
    key of [spot]. *)
Definition Updates (s : Spot) (f : Form) (db : DB) : DB :=
  match rows db !! ID s with
  | Some r => mkDB (<[ID s := updated f r]> (rows db)) (seq db)
  | None => db
  end.

End Gorm.

(** ** Start-up *)

(** The start of [main]: [db.Model(&Spot{}).Count(&count)] and, when the
    table is empty, the insertion of two rows. *)
Definition initialize (db : DB) : DB :=
  if (size (rows db) =? 0)%nat then
    Gorm.Create (mkRow "黄山" "中国名山" "门票230元" "高铁+大巴" 0 "")
      (Gorm.Create (mkRow "西湖" "杭州著名景点" "免费" "公交可达" 0 "") db)
  else db.

(** ** The route handlers of the engine on port 8080 *)

(** What a handler answers. *)
Inductive Response : Type :=
  | HTML (spots : list Spot)
      (** [c.HTML(http.StatusOK, "index.html", gin.H{"spots": spots})] *)
  | Redirect
      (** [c.Redirect(http.StatusFound, "/")] *)
  | NotFound (id : string)
      (** [c.String(http.StatusNotFound, .., id)] *).

Definition status (r : Response) : Z :=
  match r with
  | HTML _ => 200
  | Redirect => 302
  | NotFound _ => 404
  end.

Definition all_rows : Spot -> bool := fun _ => true.

(** [name LIKE ? OR description LIKE ?] with both arguments ["%"+query+"%"]. *)
Definition name_or_description_like (query : string) (s : Spot) : bool :=
  Sqlite.like ("%" +:+ query +:+ "%") (Name s)
  || Sqlite.like ("%" +:+ query +:+ "%") (Description s).

(** [GET /] *)
Definition get_index (db : DB) : DB * Response :=
  (db, HTML (Gorm.Find all_rows db)).

(** [Spot{Name: name, Description: description, Ticket: ticket,
    Transport: transport, ImageURL: imageURL, RecommendCount: 0}] *)
Definition created (f : Form) : Row :=
  mkRow (form_name f) (form_description f) (form_ticket f)
        (form_transport f) 0 (form_imageurl f).

(** [POST /add] *)
Definition post_add (f : Form) (db : DB) : DB * Response :=
  (Gorm.Create (created f) db, Redirect).

(** [spot.RecommendCount++] *)
Definition incr_recommend (s : Spot) : Spot :=
  mkSpot (ID s) (Name s) (Description s) (Ticket s) (Transport s)
         (GoInt.incr (RecommendCount s)) (ImageURL s).

(** [POST /recommend/:id] *)
Definition post_recommend (engine : Engine) (id : string) (db : DB)
    : DB * Response :=
  match Gorm.First engine id db with
  | Some spot => (Gorm.Save (incr_recommend spot) db, Redirect)
  | None => (db, Redirect)
  end.

(** [POST /delete/:id] *)
Definition post_delete (engine : Engine) (id : string) (db : DB)
    : DB * Response :=
  (Gorm.Delete engine id db, Redirect).

(** [POST /update/:id] *)
Definition post_update (engine : Engine) (id : string) (f : Form) (db : DB)
    : DB * Response :=
  match Gorm.First engine id db with
  | None => (db, NotFound id)
  | Some spot => (Gorm.Updates spot f db, Redirect)
  end.

(** [GET /search].  When the pattern is too long for [LIKE], [Find]
    returns the error, which the handler drops, and no rows. *)
Definition get_search (query : string) (db : DB) : DB * Response :=
  if String.eqb query "" then
    (db, HTML (Gorm.Find all_rows db))
  else if Sqlite.too_complex ("%" +:+ query +:+ "%") then
    (db, HTML [])
  else
    (db, HTML (Gorm.Find (name_or_description_like query) db)).

(** [POST /batchdelete].  The posted values are bound as the arguments
    of [id IN ?] and compared with the key as values, never read as SQL:
    [ids] are the keys they denote, a value that denotes no key matching
    no row. *)
Definition post_batchdelete (ids : list positive) (db : DB) : DB * Response :=
  if (0 <? length ids)%nat then (Gorm.DeleteIn ids db, Redirect)
  else (db, Redirect).

(** The routes of [r1].  The [id] of a route is the text of its path
    segment. *)
Inductive Request : Type :=
  | GetIndex
  | PostAdd (f : Form)
  | PostRecommend (id : string)
  | PostDelete (id : string)
  | PostUpdate (id : string) (f : Form)
  | GetSearch (query : string)
  | PostBatchDelete (ids : list positive).

Definition serve (engine : Engine) (req : Request) (db : DB) : DB * Response :=
  match req with
  | GetIndex => get_index db
  | PostAdd f => post_add f db
  | PostRecommend id => post_recommend engine id db
  | PostDelete id => post_delete engine id db
  | PostUpdate id f => post_update engine id f db
  | GetSearch query => get_search query db
  | PostBatchDelete ids => post_batchdelete ids db
  end.

(** The sequences the spec calls [list()] and [search(q)]. *)
Definition spots_of (r : Response) : list Spot :=
  match r with
  | HTML spots => spots
  | _ => []
  end.

Definition list_spots (db : DB) : list Spot := spots_of (snd (get_index db)).
Definition search_spots (query : string) (db : DB) : list Spot :=
  spots_of (snd (get_search query db)).

(** ** Requests served concurrently *)

(** The server runs each handler in a goroutine of its own.  A handler's
    database calls are separate statements, with no transaction around
    them, so the calls of two handlers can alternate.  [Task] is a
    [POST /recommend/:id] handler between its calls: [Start] before
    [db.First(&spot, id)], [Loaded] after it with [err == nil] and before
    the increment and [db.Save(&spot)], [Finished] after the redirect. *)
Module Concurrent.

Inductive Task : Type :=
  | Start (id : string)
  | Loaded (spot : Spot)
  | Finished.

(** The next database call of a task. *)
Definition step (engine : Engine) (t : Task) (db : DB) : Task * DB :=
  match t with
  | Start id =>
      match Gorm.First engine id db with
      | Some spot => (Loaded spot, db)
      | None => (Finished, db)
      end
  | Loaded spot => (Finished, Gorm.Save (incr_recommend spot) db)
  | Finished => (Finished, db)
  end.

(** A schedule names, call by call, the task that runs next. *)
Fixpoint run (engine : Engine) (sched : list nat) (ts : list Task) (db : DB)
    : list Task * DB :=
  match sched with
  | [] => (ts, db)
  | i :: sched' =>
      match ts !! i with
      | Some t =>
          let '(t', db') := step engine t db in
          run engine sched' (<[i := t']> ts) db'
      | None => run engine sched' ts db
      end
  end.

Definition finished (t : Task) : bool :=
  match t with Finished => true | _ => false end.

(** The schedule that serves [n] tasks, numbered from [k], one after
    another: both calls of a task before the first call of the next. *)
Fixpoint serial (k n : nat) : list nat :=
  match n with
  | O => []
  | S n' => k :: k :: serial (S k) n'
  end.

End Concurrent.

(** ** Tests on text, for stating what a search returns *)

Module Text.

(** [test] holds of [s] or of what is left of [s] after dropping some
    of its first bytes. *)
Fixpoint any_suffix (test : string -> bool) (s : string) : bool :=
  test s ||
  match s with
  | EmptyString => false
  | String _ s' => any_suffix test s'
  end.

(** [q] is a prefix of [s]. *)
Fixpoint starts_with (q s : string) : bool :=
  match q, s with
  | EmptyString, _ => true
  | String _ _, EmptyString => false
  | String c q', String d s' => Ascii.eqb c d && starts_with q' s'
  end.

(** [q] occurs in [s], letter case respected (Go's [strings.Contains]). *)
Definition contains (q s : string) : bool :=
  any_suffix (starts_with q) s.

Definition is_upper (c : ascii) : bool :=
  ((65 <=? nat_of_ascii c) && (nat_of_ascii c <=? 90))%nat.

Definition to_lower (c : ascii) : ascii :=
  if is_upper c then ascii_of_nat (nat_of_ascii c + 32) else c.

(** The text with A-Z replaced by a-z. *)
Fixpoint lower (s : string) : string :=
  match s with
  | EmptyString => EmptyString
  | String c s' => String (to_lower c) (lower s')
  end.

(** The characters [q] begin the characters [s], up to the case of the
    letters A-Z. *)
Fixpoint starts_with_nocase (q s : list N) : bool :=
  match q, s with
  | [], _ => true
  | _ :: _, [] => false
  | c :: q', d :: s' => Sqlite.same_char c d && starts_with_nocase q' s'
  end.

(** The characters [q] occur in a row among the characters [s], up to
    the case of the letters A-Z. *)
Definition contains_nocase (q s : list N) : bool :=
  Sqlite.any_suffix (starts_with_nocase q) s.

(** None of the characters is a wildcard of [LIKE]. *)
Fixpoint no_wildcard (q : list N) : bool :=
  match q with
  | [] => true
  | c :: q' =>
      negb (c =? Sqlite.percent)%N && negb (c =? Sqlite.underscore)%N
      && no_wildcard q'
  end.

(** The text holds no NUL byte. *)
Fixpoint no_nul (q : string) : bool :=
  match q with
  | EmptyString => true
  | String a q' => negb (Sqlite.byte a =? 0)%N && no_nul q'
  end.

(** The text is made of [%] only. *)
Fixpoint all_percent (q : string) : bool :=
  match q with
  | EmptyString => true
  | String a q' => Ascii.eqb a "%" && all_percent q'
  end.

(** The text has a first character: it is not empty and does not begin
    with a NUL byte. *)
Definition has_char (s : string) : bool :=
  match s with
  | EmptyString => false
  | String a _ => negb (Sqlite.byte a =? 0)%N
  end.

End Text.

(** ** Vocabulary of the statements *)

(** The row [POST /recommend/:id] writes back for the row [r] it read. *)
Definition recommended (r : Row) : Row :=
  mkRow (name r) (description r) (ticket r) (transport r)
        (GoInt.incr (recommend_count r)) (image_url r).

(** Partial update of one field: a supplied value that is not empty
    replaces the stored one, an empty one leaves it. *)
Definition patched (supplied stored result : string) : Prop :=
  (supplied <> "" -> result = supplied) /\ (supplied = "" -> result = stored).

(** Search as "contains the query as a case-sensitive substring": the
    records of the listing whose name or description contains [query]. *)
Definition substring_search (query : string) (db : DB) : list Spot :=
  filter (fun s => Text.contains query (Name s)
                   || Text.contains query (Description s) = true)
         (list_spots db).

(** Search as "contains the characters of the query, whatever the case
    of its letters": the records of the listing among the characters of
    whose name or description those of [query] occur. *)
Definition nocase_search (query : string) (db : DB) : list Spot :=
  filter (fun s =>
            Text.contains_nocase (Sqlite.chars query) (Sqlite.chars (Name s))
            || Text.contains_nocase (Sqlite.chars query)
                 (Sqlite.chars (Description s)) = true)
         (list_spots db).

(** The request names its record by a text that [strconv.Atoi] reads, as
    every link and form of a rendered page does. *)
Definition plain (req : Request) : Prop :=
  match req with
  | PostRecommend id | PostDelete id | PostUpdate id _ =>
      is_Some (Strconv.Atoi id)
  | _ => True
  end.

(** Requests served one after another, each on the database the one
    before it left. *)
Fixpoint serve_all (engine : Engine) (reqs : list Request) (db : DB) : DB :=
  match reqs with
  | [] => db
  | req :: reqs' => serve_all engine reqs' (fst (serve engine req db))
  end.

(** Every key in the table has been handed out by the sequence. *)
Definition keys_bounded (db : DB) : Prop :=
  forall k r, rows db !! k = Some r -> (Npos k <= seq db)%N.

(** The key and the columns of a listed record. *)
Definition entry (s : Spot) : positive * Row := (ID s, to_row s).

(** A form with every field empty, as posted by a request without form
    fields. *)
Definition empty_form : Form := mkForm "" "" "" "" "".

(** The tasks that have a database call left to make. *)
Fixpoint pending (ts : list Concurrent.Task) : nat :=
  match ts with
  | [] => O
  | t :: ts' => ((if Concurrent.finished t then 0 else 1) + pending ts')%nat
  end.

(** What holds of a task while recommendations of the key [id] run on a
    row whose count began at [lo], with [p] tasks still pending and [hi]
    the count if none of them were lost: it recommends [id], and the
    copy it has read leaves room for the pending writes. *)
Definition task_ok (id : positive) (lo hi : Z) (p : nat)
    (t : Concurrent.Task) : Prop :=
  match t with
  | Concurrent.Start text => Strconv.Atoi text = Some (Zpos id)
  | Concurrent.Loaded spot =>
      ID spot = id
      /\ lo <= RecommendCount spot
      /\ RecommendCount spot + Z.of_nat p <= hi
  | Concurrent.Finished => True
  end.

(** The state of [n] recommendations of [id] under way: every task is
    as above, the row is there, its count has not gone below [lo], it
    leaves room for the pending writes, and it is above [lo] once a task
    has finished. *)
Definition recommending (id : positive) (lo hi : Z) (n : nat)
    (ts : list Concurrent.Task) (db : DB) : Prop :=
  Forall (task_ok id lo hi (pending ts)) ts
  /\ exists r,
       rows db !! id = Some r
       /\ lo <= recommend_count r
       /\ recommend_count r + Z.of_nat (pending ts) <= hi
       /\ ((pending ts < n)%nat -> lo + 1 <= recommend_count r).

(** ** Tables used as examples *)

Module Examples.

(** An engine that takes no text for a condition: the statement fails
    and changes nothing. *)
Definition strict : Engine := mkEngine (fun _ _ => None) (fun _ db => db).

Definition empty_db : DB := mkDB ∅ 0.

Definition west_lake : Form :=
  mkForm "West Lake" "Hangzhou" "free" "bus" "".

Definition huangshan : Form :=
  mkForm "Huangshan" "a famous mountain" "230 yuan" "rail and coach" "".

(** A form that supplies a name and nothing else. *)
Definition name_only : Form := mkForm "X" "" "" "" "".

(** The empty table after two [POST /add]: keys 1 and 2. *)
Definition two_spots : DB :=
  fst (post_add huangshan (fst (post_add west_lake empty_db))).

(** A table whose only row has been recommended up to the largest [int]. *)
Definition saturated : DB :=
  mkDB {[ 1%positive := mkRow "West Lake" "Hangzhou" "free" "bus"
                              GoInt.max_int "" ]} 1.

(** The least numeral that is no [int]: 2^63. *)
Definition too_big : string := "9223372036854775808".

End Examples.

(** * Properties *)

(** ** Go [int] arithmetic *)

Section GoIntFacts.
Import GoInt.

Lemma wrap_in_range z : in_range z -> wrap z = z.
Proof.
  unfold in_range, wrap, min_int, max_int. intros Hz.
  rewrite Z.mod_small; lia.
Qed.

Lemma wrap_lower_bound z : min_int <= wrap z.
Proof.
  unfold wrap, min_int.
  pose proof (Z.mod_pos_bound (z + 2 ^ 63) (2 ^ 64)). lia.
Qed.

Lemma incr_exact z : min_int <= z < max_int -> incr z = z + 1.
Proof.
  intros Hz. unfold incr. apply wrap_in_range.
  unfold in_range, min_int, max_int in *. lia.
Qed.

Lemma incr_max_int : incr max_int = min_int.
Proof. reflexivity. Qed.

Lemma incr_grows z : z < max_int -> z < incr z.
Proof.
  intros Hz. destruct (Z_lt_le_dec z min_int) as [Hlow | Hlow].
  - pose proof (wrap_lower_bound (z + 1)). unfold incr. lia.
  - rewrite incr_exact; lia.
Qed.

End GoIntFacts.

(** ** [LIKE] and substrings *)

Section LikeFacts.
Import Sqlite Text.
#[local] Arguments String.append !_ _ / : simpl nomatch.

Lemma text_any_suffix_iff (f : string -> bool) s :
  Text.any_suffix f s = true <->
  exists pre post, s = pre +:+ post /\ f post = true.
Proof.
  induction s as [| c s IH]; simpl.
  - rewrite orb_false_r. split.
    + intros Hf. by exists EmptyString, EmptyString.
    + intros (pre & post & Heq & Hf).
      destruct pre; simpl in Heq; [by subst post | discriminate].
  - rewrite orb_true_iff, IH. split.
    + intros [Hf | (pre & post & -> & Hf)].
      * by exists EmptyString, (String c s).
      * by exists (String c pre), post.
    + intros (pre & post & Heq & Hf). destruct pre as [| d pre]; simpl in Heq.
      * left. by subst post.
      * right. injection Heq as -> ->. by exists pre, post.
Qed.

Lemma starts_with_iff q s :
  starts_with q s = true <-> exists post, s = q +:+ post.
Proof.
  revert s. induction q as [| c q IH]; intros s; simpl.
  - split; [intros _; by exists s | done].
  - destruct s as [| d s].
    + split; [done | intros [post Heq]; discriminate].
    + rewrite andb_true_iff, Ascii.eqb_eq, IH. split.
      * intros [-> [post ->]]. by exists post.
      * intros [post Heq]. injection Heq as -> ->. split; [done | by exists post].
Qed.

(** [contains] is the substring relation on texts. *)
Lemma contains_iff q s :
  contains q s = true <-> exists pre post, s = pre +:+ q +:+ post.
Proof.
  unfold contains. rewrite text_any_suffix_iff. split.
  - intros (pre & rest & -> & Hq). apply starts_with_iff in Hq as [post ->].
    by exists pre, post.
  - intros (pre & post & ->). exists pre, (q +:+ post).
    split; [done |]. apply starts_with_iff. by exists post.
Qed.

Lemma any_suffix_ext (f g : list N -> bool) s :
  (forall t, f t = g t) -> Sqlite.any_suffix f s = Sqlite.any_suffix g s.
Proof.
  intros Hfg. induction s as [| c s IH]; simpl; rewrite Hfg; [done |].
  by rewrite IH.
Qed.

Lemma any_suffix_here (f : list N -> bool) s :
  f s = true -> Sqlite.any_suffix f s = true.
Proof. intros Hf. destruct s; simpl; by rewrite Hf. Qed.

Lemma any_suffix_iff (f : list N -> bool) s :
  Sqlite.any_suffix f s = true <->
  exists pre post, s = pre ++ post /\ f post = true.
Proof.
  induction s as [| c s IH]; simpl.
  - rewrite orb_false_r. split.
    + intros Hf. by exists [], [].
    + intros (pre & post & Heq & Hf).
      symmetry in Heq. apply app_eq_nil in Heq as [_ ->]. done.
  - rewrite orb_true_iff, IH. split.
    + intros [Hf | (pre & post & -> & Hf)].
      * by exists [], (c :: s).
      * by exists (c :: pre), post.
    + intros (pre & post & Heq & Hf). destruct pre as [| d pre]; simpl in Heq.
      * left. by subst post.
      * right. injection Heq as -> ->. by exists pre, post.
Qed.

Lemma starts_with_nocase_iff q s :
  starts_with_nocase q s = true <->
  exists mid post,
    s = mid ++ post /\ Forall2 (fun c d => same_char c d = true) q mid.
Proof.
  revert s. induction q as [| c q IH]; intros s; simpl.
  - split; [intros _; exists [], s; by split; [| constructor] | done].
  - destruct s as [| d s].
    + split; [done |]. intros (mid & post & Heq & Hall).
      inversion Hall; subst. discriminate.
    + rewrite andb_true_iff, IH. split.
      * intros [Hcd (mid & post & -> & Hall)].
        exists (d :: mid), post. split; [done | by constructor].
      * intros (mid & post & Heq & Hall).
        inversion Hall as [| ? e ? mid' Hce Hall']; subst.
        injection Heq as -> ->. split; [done | by exists mid', post].
Qed.

(** [contains_nocase] is the substring relation on characters, up to
    the case of A-Z. *)
Lemma contains_nocase_iff q s :
  contains_nocase q s = true <->
  exists pre mid post,
    s = pre ++ mid ++ post /\ Forall2 (fun c d => same_char c d = true) q mid.
Proof.
  unfold contains_nocase. rewrite any_suffix_iff. split.
  - intros (pre & rest & -> & Hq).
    apply starts_with_nocase_iff in Hq as (mid & post & -> & Hall).
    by exists pre, mid, post.
  - intros (pre & mid & post & -> & Hall). exists pre, (mid ++ post).
    split; [done |]. apply starts_with_nocase_iff. by exists mid, post.
Qed.

Lemma like_chars_end s : Sqlite.any_suffix (like_chars []) s = true.
Proof. induction s as [| c s IH]; [done | exact IH]. Qed.

(** A pattern without wildcards followed by [%] tests for a prefix. *)
Lemma like_chars_prefix q s :
  no_wildcard q = true ->
  like_chars (q ++ [percent]) s = starts_with_nocase q s.
Proof.
  revert s. induction q as [| c q IH]; intros s Hq.
  - apply like_chars_end.
  - simpl in Hq. apply andb_true_iff in Hq as [Hc Hq].
    apply andb_true_iff in Hc as [Hpc Hus].
    apply negb_true_iff in Hpc, Hus. simpl. rewrite Hpc.
    destruct s as [| d s]; [done |]. rewrite Hus. simpl. by rewrite IH.
Qed.

Lemma like_chars_contains q s :
  no_wildcard q = true ->
  like_chars (percent :: q ++ [percent]) s = contains_nocase q s.
Proof.
  intros Hq. simpl. unfold contains_nocase.
  apply any_suffix_ext. intros t. by apply like_chars_prefix.
Qed.

(** Reading a text without NUL bytes, then a [%]. *)
Lemma read_percent q :
  no_nul q = true ->
  forall p, read p (q +:+ "%") = read p q ++ [percent].
Proof.
  induction q as [| a q IH]; intros Hq p.
  - by destruct p.
  - simpl in Hq. apply andb_true_iff in Hq as [Ha Hq].
    apply negb_true_iff in Ha.
    change (String a q +:+ "%") with (String a (q +:+ "%")).
    cbn [read]. rewrite Ha.
    destruct p as [c |];
      destruct (is_continuation (byte a)), (byte a <? 192)%N;
      by rewrite ?IH.
Qed.

Lemma chars_pattern q :
  no_nul q = true ->
  chars ("%" +:+ q +:+ "%") = percent :: chars q ++ [percent].
Proof.
  intros Hq. unfold chars.
  change ("%" +:+ q +:+ "%") with (String "%" (q +:+ "%")).
  change (read None (String "%" (q +:+ "%")))
    with (percent :: read None (q +:+ "%")).
  by rewrite read_percent.
Qed.

(** The pattern [%q%] of the search route, for [q] without wildcards
    and NUL bytes. *)
Lemma like_contains q s :
  no_nul q = true ->
  no_wildcard (chars q) = true ->
  like ("%" +:+ q +:+ "%") s = contains_nocase (chars q) (chars s).
Proof.
  intros Hnul Hwild. unfold like. rewrite chars_pattern by done.
  by apply like_chars_contains.
Qed.

End LikeFacts.

(** ** The result order *)

#[global] Instance spot_le_total : Total Gorm.spot_le.
Proof. intros a b. unfold Gorm.spot_le. lia. Qed.

#[global] Instance spot_le_trans : Transitive Gorm.spot_le.
Proof. intros a b c. unfold Gorm.spot_le. lia. Qed.

Lemma StronglySorted_filter {A} (R : relation A) (P : A -> Prop)
    `{forall x, Decision (P x)} (l : list A) :
  StronglySorted R l -> StronglySorted R (filter P l).
Proof.
  induction 1 as [| x l Hl IH Hx]; [constructor |].
  rewrite filter_cons. case_decide; [| done].
  constructor; [done |]. rewrite Forall_forall in Hx |- *.
  intros y Hy. apply list_elem_of_filter in Hy as [_ Hy]. by apply Hx.
Qed.

(** ** The table and its queries *)

Section TableFacts.
Import Gorm.

Lemma to_spot_to_row s : to_spot (ID s) (to_row s) = s.
Proof. by destruct s. Qed.

Lemma to_row_to_spot id r : to_row (to_spot id r) = r.
Proof. by destruct r. Qed.

(** The scan yields the rows of the table, each under its key. *)
Lemma elem_of_scan s db :
  s ∈ scan db <-> rows db !! ID s = Some (to_row s).
Proof.
  unfold scan. rewrite list_elem_of_fmap. split.
  - intros ([k r] & -> & Hkr). apply elem_of_map_to_list in Hkr.
    simpl. by rewrite to_row_to_spot.
  - intros Hs. exists (ID s, to_row s). split.
    + simpl. by rewrite to_spot_to_row.
    + by apply elem_of_map_to_list.
Qed.

Lemma Find_Permutation cond db :
  Find cond db ≡ₚ filter (fun s => cond s = true) (scan db).
Proof. apply merge_sort_Permutation. Qed.

Lemma filter_all_rows (l : list Spot) :
  filter (fun s => all_rows s = true) l = l.
Proof.
  induction l as [| x l IH]; [done |].
  rewrite filter_cons. case_decide; [by rewrite IH | done].
Qed.

Lemma Find_all_Permutation db : Find all_rows db ≡ₚ scan db.
Proof. rewrite Find_Permutation. by rewrite filter_all_rows. Qed.

Lemma elem_of_Find cond s db :
  s ∈ Find cond db <-> cond s = true /\ rows db !! ID s = Some (to_row s).
Proof.
  rewrite Find_Permutation, list_elem_of_filter. by rewrite elem_of_scan.
Qed.

Lemma Find_sorted cond db : StronglySorted spot_le (Find cond db).
Proof. apply StronglySorted_merge_sort; apply _. Qed.

(** Two rows of one table that the order does not tell apart are one row. *)
Lemma spot_le_antisym_scan db a b :
  a ∈ scan db -> b ∈ scan db -> spot_le a b -> spot_le b a -> a = b.
Proof.
  rewrite !elem_of_scan. intros Ha Hb Hab Hba.
  assert (ID a = ID b) as Hid by (unfold spot_le in *; lia).
  rewrite Hid in Ha.
  assert (to_row a = to_row b) as Hrow by congruence.
  transitivity (to_spot (ID a) (to_row a)); [by rewrite to_spot_to_row |].
  rewrite Hid, Hrow. apply to_spot_to_row.
Qed.

(** A condition selects from the ordered table: [Where] followed by
    [Order] returns the rows of the unconditional query that pass the
    condition, in the same order. *)
Lemma Find_filter cond db :
  Find cond db = filter (fun s => cond s = true) (Find all_rows db).
Proof.
  apply (StronglySorted_unique_strong spot_le).
  - intros a b Ha Hb. apply (spot_le_antisym_scan db).
    + apply elem_of_Find in Ha as [_ Ha]. by apply elem_of_scan.
    + apply list_elem_of_filter in Hb as [_ Hb].
      apply elem_of_Find in Hb as [_ Hb]. by apply elem_of_scan.
  - apply Find_sorted.
  - apply StronglySorted_filter, Find_sorted.
  - rewrite Find_Permutation. by rewrite Find_all_Permutation.
Qed.

Lemma Find_ext (c1 c2 : Spot -> bool) db :
  (forall s, c1 s = c2 s) -> Find c1 db = Find c2 db.
Proof.
  intros Hc. unfold Find. f_equal.
  apply list_filter_iff. intros s. by rewrite Hc.
Qed.

(** No key of the table exceeds [max_key]. *)
Lemma max_key_bound (m : gmap positive Row) k r :
  m !! k = Some r -> (Npos k <= max_key m)%N.
Proof.
  unfold max_key. revert k r.
  apply (map_fold_weak_ind
           (fun acc (m : gmap positive Row) =>
              forall k r, m !! k = Some r -> (Npos k <= acc)%N)).
  - intros k r Hk. by rewrite lookup_empty in Hk.
  - intros i x m' acc Hi IH k r Hk.
    destruct (decide (i = k)) as [-> | Hne].
    + lia.
    + rewrite lookup_insert_ne in Hk by done. specialize (IH k r Hk). lia.
Qed.

Lemma max_key_le (m : gmap positive Row) (b : N) :
  (forall k r, m !! k = Some r -> (Npos k <= b)%N) -> (max_key m <= b)%N.
Proof.
  unfold max_key.
  apply (map_fold_weak_ind
           (fun acc (m : gmap positive Row) =>
              (forall k r, m !! k = Some r -> (Npos k <= b)%N) -> (acc <= b)%N)).
  - lia.
  - intros i x m' acc Hi IH Hall.
    pose proof (Hall i x (lookup_insert_eq m' i x)) as Hib.
    assert (acc <= b)%N as Hacc; [| lia].
    apply IH. intros k r Hk. apply (Hall k r).
    rewrite lookup_insert_ne; [done |]. intros ->. congruence.
Qed.

(** The key of the next insertion is not in use. *)
Lemma next_id_fresh db : rows db !! next_id db = None.
Proof.
  destruct (rows db !! next_id db) as [r |] eqn:Hk; [| done].
  apply max_key_bound in Hk. unfold next_id in Hk.
  rewrite N.succ_pos_spec in Hk. lia.
Qed.

Lemma next_id_above_seq db : (seq db < Npos (next_id db))%N.
Proof. unfold next_id. rewrite N.succ_pos_spec. lia. Qed.

Lemma next_id_above_keys db k r :
  rows db !! k = Some r -> (k < next_id db)%positive.
Proof.
  intros Hk. apply max_key_bound in Hk.
  pose proof (N.succ_pos_spec (N.max (seq db) (max_key (rows db)))) as Hnext.
  unfold next_id. lia.
Qed.

Lemma scan_insert_fresh db id r s :
  rows db !! id = None ->
  scan (mkDB (<[id := r]> (rows db)) s) ≡ₚ to_spot id r :: scan db.
Proof.
  intros Hid. unfold scan. simpl.
  rewrite (map_to_list_insert (rows db) id r Hid). done.
Qed.

Lemma DB_eq (a b : DB) : rows a = rows b -> seq a = seq b -> a = b.
Proof. destruct a, b. simpl. by intros -> ->. Qed.

(** A text that [strconv.Atoi] reads names the row under its value. *)
Lemma First_key engine text id db :
  Strconv.Atoi text = Some (Zpos id) ->
  First engine text db = to_spot id <$> rows db !! id.
Proof. intros Hid. unfold First, BuildCondition. by rewrite Hid. Qed.

Lemma First_no_key engine text z db :
  Strconv.Atoi text = Some z -> z <= 0 -> First engine text db = None.
Proof.
  intros Hid Hz. unfold First, BuildCondition. rewrite Hid.
  destruct z; [done | lia | done].
Qed.

Lemma Delete_key engine text id db :
  Strconv.Atoi text = Some (Zpos id) ->
  Delete engine text db = mkDB (delete id (rows db)) (seq db).
Proof. intros Hid. unfold Delete, BuildCondition. by rewrite Hid. Qed.

Lemma Delete_no_key engine text z db :
  Strconv.Atoi text = Some z -> z <= 0 -> Delete engine text db = db.
Proof.
  intros Hid Hz. unfold Delete, BuildCondition. rewrite Hid.
  destruct z; [done | lia | done].
Qed.

End TableFacts.

(** ** The handlers, case by case *)

Section HandlerFacts.
Import Gorm.
Context (engine : Engine).

Lemma post_recommend_found text id db r :
  Strconv.Atoi text = Some (Zpos id) ->
  rows db !! id = Some r ->
  post_recommend engine text db
  = (mkDB (<[id := recommended r]> (rows db)) (seq db), Redirect).
Proof.
  intros Htext Hid. unfold post_recommend.
  rewrite (First_key engine text id db Htext), Hid. simpl.
  unfold Save. simpl. by rewrite Hid.
Qed.

Lemma post_recommend_missing text id db :
  Strconv.Atoi text = Some (Zpos id) ->
  rows db !! id = None ->
  post_recommend engine text db = (db, Redirect).
Proof.
  intros Htext Hid. unfold post_recommend.
  by rewrite (First_key engine text id db Htext), Hid.
Qed.

Lemma post_recommend_no_key text z db :
  Strconv.Atoi text = Some z -> z <= 0 ->
  post_recommend engine text db = (db, Redirect).
Proof.
  intros Htext Hz. unfold post_recommend.
  by rewrite (First_no_key engine text z db Htext Hz).
Qed.

Lemma post_update_found text id f db r :
  Strconv.Atoi text = Some (Zpos id) ->
  rows db !! id = Some r ->
  post_update engine text f db
  = (mkDB (<[id := updated f r]> (rows db)) (seq db), Redirect).
Proof.
  intros Htext Hid. unfold post_update.
  rewrite (First_key engine text id db Htext), Hid. simpl.
  unfold Updates. simpl. by rewrite Hid.
Qed.

Lemma post_update_missing text id f db :
  Strconv.Atoi text = Some (Zpos id) ->
  rows db !! id = None ->
  post_update engine text f db = (db, NotFound text).
Proof.
  intros Htext Hid. unfold post_update.
  by rewrite (First_key engine text id db Htext), Hid.
Qed.

Lemma post_update_no_key text z f db :
  Strconv.Atoi text = Some z -> z <= 0 ->
  post_update engine text f db = (db, NotFound text).
Proof.
  intros Htext Hz. unfold post_update.
  by rewrite (First_no_key engine text z db Htext Hz).
Qed.

Lemma post_delete_key text id db :
  Strconv.Atoi text = Some (Zpos id) ->
  post_delete engine text db
  = (mkDB (delete id (rows db)) (seq db), Redirect).
Proof.
  intros Htext. unfold post_delete. by rewrite (Delete_key engine text id db).
Qed.

Lemma post_delete_no_key text z db :
  Strconv.Atoi text = Some z -> z <= 0 ->
  post_delete engine text db = (db, Redirect).
Proof.
  intros Htext Hz. unfold post_delete.
  by rewrite (Delete_no_key engine text z db).
Qed.

Lemma assign_empty old : assign "" old = old.
Proof. done. Qed.

Lemma assign_nonempty new old : new <> "" -> assign new old = new.
Proof.
  intros Hnew. unfold assign.
  destruct (String.eqb_spec new ""); [done | done].
Qed.

Lemma lookup_DeleteIn ids db k :
  rows (DeleteIn ids db) !! k
  = if decide (k ∈ ids) then None else rows db !! k.
Proof.
  unfold DeleteIn. simpl. rewrite map_lookup_filter.
  destruct (rows db !! k) as [r |] eqn:Hk; simpl.
  - case_decide as Hin.
    + rewrite option_guard_False; [done | simpl; tauto].
    + by rewrite option_guard_True.
  - by case_decide.
Qed.

Lemma lookup_post_batchdelete ids db k :
  rows (fst (post_batchdelete ids db)) !! k
  = if decide (k ∈ ids) then None else rows db !! k.
Proof.
  unfold post_batchdelete. destruct ids as [| i ids]; simpl.
  - by destruct (decide (k ∈ [])) as [Hin%elem_of_nil |].
  - apply lookup_DeleteIn.
Qed.

Lemma post_add_eq f db :
  post_add f db
  = (mkDB (<[next_id db := created f]> (rows db)) (Npos (next_id db)),
     Redirect).
Proof. done. Qed.

End HandlerFacts.

Lemma search_spots_empty db : search_spots "" db = list_spots db.
Proof. done. Qed.

Lemma search_spots_nonempty query db :
  query <> "" ->
  Sqlite.too_complex ("%" +:+ query +:+ "%") = false ->
  search_spots query db = Gorm.Find (name_or_description_like query) db.
Proof.
  intros Hq Hlen. unfold search_spots, get_search. rewrite Hlen.
  by destruct (String.eqb_spec query "").
Qed.

Lemma search_spots_too_complex query db :
  query <> "" ->
  Sqlite.too_complex ("%" +:+ query +:+ "%") = true ->
  search_spots query db = [].
Proof.
  intros Hq Hlen. unfold search_spots, get_search. rewrite Hlen.
  by destruct (String.eqb_spec query "").
Qed.

(** What a handler does with an id that [strconv.Atoi] reads. *)

Section PlainFacts.
Context (engine : Engine).

Lemma Atoi_cases text :
  is_Some (Strconv.Atoi text) ->
  (exists id, Strconv.Atoi text = Some (Zpos id))
  \/ (exists z, Strconv.Atoi text = Some z /\ z <= 0).
Proof.
  intros [z Hz]. destruct z as [| p | p].
  - right. exists 0. split; [done | lia].
  - left. by exists p.
  - right. exists (Zneg p). split; [done | lia].
Qed.

Lemma post_recommend_plain text db :
  is_Some (Strconv.Atoi text) ->
  (exists id r,
     Strconv.Atoi text = Some (Zpos id) /\ rows db !! id = Some r
     /\ post_recommend engine text db
        = (mkDB (<[id := recommended r]> (rows db)) (seq db), Redirect))
  \/ post_recommend engine text db = (db, Redirect).
Proof.
  intros [[id Hid] | (z & Hz & Hle)]%Atoi_cases.
  - destruct (rows db !! id) as [r |] eqn:Hrow.
    + left. exists id, r. split; [done |]. split; [done |].
      by apply post_recommend_found.
    + right. by apply (post_recommend_missing engine text id).
  - right. by apply (post_recommend_no_key engine text z).
Qed.

Lemma post_update_plain text f db :
  is_Some (Strconv.Atoi text) ->
  (exists id r,
     Strconv.Atoi text = Some (Zpos id) /\ rows db !! id = Some r
     /\ post_update engine text f db
        = (mkDB (<[id := Gorm.updated f r]> (rows db)) (seq db), Redirect))
  \/ post_update engine text f db = (db, NotFound text).
Proof.
  intros [[id Hid] | (z & Hz & Hle)]%Atoi_cases.
  - destruct (rows db !! id) as [r |] eqn:Hrow.
    + left. exists id, r. split; [done |]. split; [done |].
      by apply post_update_found.
    + right. by apply (post_update_missing engine text id).
  - right. by apply (post_update_no_key engine text z).
Qed.

Lemma post_delete_plain text db :
  is_Some (Strconv.Atoi text) ->
  (exists id,
     Strconv.Atoi text = Some (Zpos id)
     /\ post_delete engine text db
        = (mkDB (delete id (rows db)) (seq db), Redirect))
  \/ post_delete engine text db = (db, Redirect).
Proof.
  intros [[id Hid] | (z & Hz & Hle)]%Atoi_cases.
  - left. exists id. split; [done |]. by apply post_delete_key.
  - right. by apply (post_delete_no_key engine text z).
Qed.

End PlainFacts.

(** ** Listing and search *)

(** C1.  On every table, the listing and every search result are sorted
    by [RecommendCount] descending, ties by [ID] ascending; and the
    listing holds exactly the rows of the table. *)
Theorem listing_and_search_sorted (db : DB) (query : string) :
  StronglySorted Gorm.spot_le (list_spots db)
  /\ StronglySorted Gorm.spot_le (search_spots query db)
  /\ list_spots db ≡ₚ Gorm.scan db.
Proof.
  split; [apply Find_sorted |]. split; [| apply Find_all_Permutation].
  unfold search_spots, get_search.
  destruct (String.eqb query ""); [apply Find_sorted |].
  destruct (Sqlite.too_complex _); [constructor | apply Find_sorted].
Qed.

(** C3, as the code has it.  An empty query returns the listing.  A
    query that is not empty and whose pattern [%query%] is within the
    length [LIKE] accepts returns the records of the listing, in the
    order of the listing, whose name or description matches that
    pattern; when the query holds no NUL byte and none of its characters
    is [%] or [_], these are the records among the characters of whose
    name or description (read up to the first NUL byte) the characters of
    the query occur in a row, up to the case of the letters A-Z.  A query
    whose pattern is longer returns no record. *)
Theorem search_selects_from_listing (query : string) (db : DB) :
  (query = "" -> search_spots query db = list_spots db)
  /\ (query <> "" ->
      Sqlite.too_complex ("%" +:+ query +:+ "%") = false ->
      search_spots query db
      = filter (fun s => name_or_description_like query s = true)
               (list_spots db))
  /\ (query <> "" ->
      Sqlite.too_complex ("%" +:+ query +:+ "%") = false ->
      Text.no_nul query = true ->
      Text.no_wildcard (Sqlite.chars query) = true ->
      search_spots query db = nocase_search query db)
  /\ (query <> "" ->
      Sqlite.too_complex ("%" +:+ query +:+ "%") = true ->
      search_spots query db = []).
Proof.
  split; [by intros -> |]. split; [| split].
  - intros Hq Hlen. rewrite search_spots_nonempty by done. apply Find_filter.
  - intros Hq Hlen Hnul Hwild. rewrite search_spots_nonempty by done.
    rewrite Find_filter. unfold nocase_search, list_spots, get_index. simpl.
    apply list_filter_iff. intros s.
    unfold name_or_description_like.
    by rewrite (like_contains query (Name s) Hnul Hwild),
               (like_contains query (Description s) Hnul Hwild).
  - apply search_spots_too_complex.
Qed.

(** ** Update *)

(** C2.  For an id that names a row of the table, [POST /update/:id]
    redirects and leaves under that key a row in which each of the five
    text fields is the supplied value where one was supplied and the
    stored value where the supplied one is empty. *)
Theorem update_is_partial (engine : Engine) (text : string) (id : positive)
    (f : Form) (db : DB) (r : Row) :
  Strconv.Atoi text = Some (Zpos id) ->
  rows db !! id = Some r ->
  exists r',
    snd (serve engine (PostUpdate text f) db) = Redirect
    /\ rows (fst (serve engine (PostUpdate text f) db)) !! id = Some r'
    /\ patched (form_name f) (name r) (name r')
    /\ patched (form_description f) (description r) (description r')
    /\ patched (form_ticket f) (ticket r) (ticket r')
    /\ patched (form_transport f) (transport r) (transport r')
    /\ patched (form_imageurl f) (image_url r) (image_url r').
Proof.
  intros Htext Hid. exists (Gorm.updated f r). cbn [serve].
  rewrite (post_update_found engine text id f db r Htext Hid). simpl.
  rewrite lookup_insert_eq.
  repeat split; try done;
    first [ by apply assign_nonempty | by intros ->].
Qed.

(** ** Recommend *)

(** C4, as the code has it.  Let the id be a text [strconv.Atoi] reads.
    If it names a row of the table whose count is an [int] below the
    largest one, [POST /recommend/:id] redirects and stores the row again
    with its count raised by exactly one.  If it names no row it
    redirects all the same and leaves the database as it was. *)
Theorem recommend_adds_one (engine : Engine) (text : string) (z : Z)
    (db : DB) :
  Strconv.Atoi text = Some z ->
  (forall id r,
     z = Zpos id ->
     rows db !! id = Some r ->
     GoInt.min_int <= recommend_count r < GoInt.max_int ->
     exists r',
       serve engine (PostRecommend text) db
       = (mkDB (<[id := r']> (rows db)) (seq db), Redirect)
       /\ recommend_count r' = recommend_count r + 1)
  /\ ((forall id, z = Zpos id -> rows db !! id = None) ->
      serve engine (PostRecommend text) db = (db, Redirect)).
Proof.
  intros Htext. split.
  - intros id r -> Hid Hrange. exists (recommended r). split.
    + by apply post_recommend_found.
    + simpl. by apply incr_exact.
  - intros Hnone. cbn [serve]. destruct z as [| id | p].
    + by apply (post_recommend_no_key engine text 0).
    + apply (post_recommend_missing engine text id); [done |]. by apply Hnone.
    + by apply (post_recommend_no_key engine text (Zneg p)).
Qed.

(** C10.  For an id that names a row of the table,
    [POST /recommend/:id] leaves under that key a record with the same
    [ID], [Name], [Description], [Ticket], [Transport] and [ImageURL],
    and leaves every row under another key as it was. *)
Theorem recommend_changes_count_only (engine : Engine) (text : string)
    (id : positive) (db : DB) (spot : Spot) :
  Strconv.Atoi text = Some (Zpos id) ->
  Gorm.First engine text db = Some spot ->
  exists spot',
    Gorm.First engine text (fst (serve engine (PostRecommend text) db))
    = Some spot'
    /\ ID spot' = ID spot
    /\ Name spot' = Name spot
    /\ Description spot' = Description spot
    /\ Ticket spot' = Ticket spot
    /\ Transport spot' = Transport spot
    /\ ImageURL spot' = ImageURL spot
    /\ delete id (rows (fst (serve engine (PostRecommend text) db)))
       = delete id (rows db).
Proof.
  intros Htext. rewrite !(First_key engine text id) by done. intros Hspot.
  destruct (rows db !! id) as [r |] eqn:Hid; [| done].
  injection Hspot as <-. cbn [serve].
  rewrite (post_recommend_found engine text id db r Htext Hid). simpl.
  exists (to_spot id (recommended r)).
  rewrite lookup_insert_eq, delete_insert_eq. done.
Qed.

(** ** Create *)

(** C6.  [POST /add] redirects after inserting, under a key that was not
    in use, one row: its name, description, ticket, transport and image
    URL are those of the form and its count is 0.  It does so whatever
    the table holds, also a row with the very same fields.  Taking the
    new row out again gives the table as it was, the table has grown by
    one row, and the listing is the old listing with the new record put
    in. *)
Theorem create_inserts_one (engine : Engine) (f : Form) (db : DB) :
  exists id r,
    rows db !! id = None
    /\ serve engine (PostAdd f) db
       = (mkDB (<[id := r]> (rows db)) (Npos id), Redirect)
    /\ name r = form_name f
    /\ description r = form_description f
    /\ ticket r = form_ticket f
    /\ transport r = form_transport f
    /\ image_url r = form_imageurl f
    /\ recommend_count r = 0
    /\ delete id (rows (fst (serve engine (PostAdd f) db))) = rows db
    /\ size (rows (fst (serve engine (PostAdd f) db))) = S (size (rows db))
    /\ list_spots (fst (serve engine (PostAdd f) db))
       ≡ₚ to_spot id r :: list_spots db.
Proof.
  exists (Gorm.next_id db), (created f).
  pose proof (next_id_fresh db) as Hfresh.
  cbn [serve]. rewrite post_add_eq. cbn [fst].
  split; [done |]. split; [done |].
  do 6 (split; [reflexivity |]). split; [| split].
  - by apply delete_insert_id.
  - by apply map_size_insert_None.
  - unfold list_spots, get_index. simpl.
    rewrite !Find_all_Permutation. by apply scan_insert_fresh.
Qed.

(** ** Batch delete *)


(** ** The count over the life of a record *)

(** What one request, its id a text [strconv.Atoi] reads, does to the
    row under one key: nothing, or it removes the row, or it puts a
    created row under a key that was free, or it is the recommendation of
    that key, or an update of it. *)
Lemma serve_effect_on_key engine req db id :
  plain req ->
  rows (fst (serve engine req db)) !! id = rows db !! id
  \/ rows (fst (serve engine req db)) !! id = None
  \/ (exists f,
        rows db !! id = None
        /\ rows (fst (serve engine req db)) !! id = Some (created f))
  \/ (exists text r,
        req = PostRecommend text /\ Strconv.Atoi text = Some (Zpos id)
        /\ rows db !! id = Some r
        /\ rows (fst (serve engine req db)) !! id = Some (recommended r))
  \/ (exists f r,
        rows db !! id = Some r
        /\ rows (fst (serve engine req db)) !! id = Some (Gorm.updated f r)).
Proof.
  destruct req as [| f | text | text | text f | query | ids];
    cbn [serve plain]; intros Hplain.
  - by left.
  - rewrite post_add_eq. simpl.
    destruct (decide (Gorm.next_id db = id)) as [<- | Hne].
    + right. right. left. exists f.
      split; [apply next_id_fresh | apply lookup_insert_eq].
    + left. by apply lookup_insert_ne.
  - destruct (post_recommend_plain engine text db Hplain)
      as [(id0 & r & Htext & Hid0 & ->) | ->]; [| by left]. simpl.
    destruct (decide (id0 = id)) as [<- | Hne].
    + do 3 right. left. exists text, r. by rewrite lookup_insert_eq.
    + left. by apply lookup_insert_ne.
  - destruct (post_delete_plain engine text db Hplain)
      as [(id0 & Htext & ->) | ->]; [| by left]. simpl.
    destruct (decide (id0 = id)) as [<- | Hne].
    + right. left. apply lookup_delete_eq.
    + left. by apply lookup_delete_ne.
  - destruct (post_update_plain engine text f db Hplain)
      as [(id0 & r & Htext & Hid0 & ->) | ->]; [| by left]. simpl.
    destruct (decide (id0 = id)) as [<- | Hne].
    + do 4 right. exists f, r. by rewrite lookup_insert_eq.
    + left. by apply lookup_insert_ne.
  - unfold get_search. destruct (String.eqb query ""); [by left |].
    destruct (Sqlite.too_complex _); by left.
  - unfold post_batchdelete. destruct (0 <? length ids)%nat; [| by left].
    cbn [fst]. rewrite lookup_DeleteIn. case_decide; [right |]; by left.
Qed.

(** Start-up keeps the rows it finds and gives its own rows count 0. *)
Lemma initialize_counts db id r' :
  rows (initialize db) !! id = Some r' ->
  rows db !! id = Some r' \/ (rows db !! id = None /\ recommend_count r' = 0).
Proof.
  unfold initialize. destruct (size (rows db) =? 0)%nat eqn:Hsize; [| by left].
  apply Nat.eqb_eq, map_size_empty_iff in Hsize.
  intros Hafter. right. split; [by rewrite Hsize, lookup_empty |].
  unfold Gorm.Create in Hafter. simpl in Hafter.
  apply lookup_insert_Some in Hafter as [[_ <-] | [_ Hafter]]; [done |].
  apply lookup_insert_Some in Hafter as [[_ <-] | [_ Hafter]]; [done |].
  by rewrite Hsize, lookup_empty in Hafter.
Qed.

(** C9, as the code has it.  Take any request whose id, if it has one,
    is a text [strconv.Atoi] reads, and any key that holds a row
    afterwards.  If the key held no row before, the row is new and its
    count is 0.  If it held a row, then unless the request is a
    recommendation of that very key the count is what it was, update
    included; and the count is not lower than before as long as it was
    below the largest [int]. *)
Theorem count_never_lowered (engine : Engine) (req : Request) (db : DB)
    (id : positive) (r' : Row) :
  plain req ->
  rows (fst (serve engine req db)) !! id = Some r' ->
  (rows db !! id = None -> recommend_count r' = 0)
  /\ (forall r,
        rows db !! id = Some r ->
        ((forall text,
            req = PostRecommend text -> Strconv.Atoi text <> Some (Zpos id)) ->
         recommend_count r' = recommend_count r)
        /\ (recommend_count r < GoInt.max_int ->
            recommend_count r <= recommend_count r')).
Proof.
  intros Hplain Hafter.
  destruct (serve_effect_on_key engine req db id Hplain)
    as [Hsame | [Hgone | [(f & Hnone & Hnew)
       | [(text & r0 & Hreq & Htext & Hold & Hnew)
       | (f & r0 & Hold & Hnew)]]]].
  - rewrite Hsame in Hafter. split; [congruence |].
    intros r Hr. assert (r' = r) as -> by congruence. split; [done | lia].
  - congruence.
  - assert (r' = created f) as -> by congruence. split; [done |].
    intros r Hr. congruence.
  - assert (r' = recommended r0) as -> by congruence. split; [congruence |].
    intros r Hr. assert (r0 = r) as -> by congruence. split.
    + intros Hother. by destruct (Hother text Hreq).
    + simpl. intros Hmax. pose proof (incr_grows _ Hmax). lia.
  - assert (r' = Gorm.updated f r0) as -> by congruence. split; [congruence |].
    intros r Hr. assert (r0 = r) as -> by congruence. simpl. split; [done | lia].
Qed.

(** ** Recommendations served concurrently *)

Section ConcurrentFacts.
Import Concurrent.
Context (engine : Engine).

(** The two calls of one task, run back to back, are the handler. *)
Lemma step_step text db :
  step engine (fst (step engine (Start text) db))
       (snd (step engine (Start text) db))
  = (Finished, fst (post_recommend engine text db)).
Proof.
  unfold step, post_recommend. by destruct (Gorm.First engine text db).
Qed.

(** One scheduled call of the task in position [k]. *)
Lemma run_next k sched (served rest : list Task) t db :
  length served = k ->
  run engine (k :: sched) (served ++ t :: rest) db
  = run engine sched (served ++ fst (step engine t db) :: rest)
        (snd (step engine t db)).
Proof.
  intros Hk. cbn [run]. rewrite list_lookup_middle by done.
  destruct (step engine t db) as [t' db'].
  rewrite insert_app_r_alt by lia. by rewrite Hk, Nat.sub_diag.
Qed.

Lemma run_serial text n :
  forall k (served : list Task) db,
    length served = k ->
    run engine (serial k n) (served ++ replicate n (Start text)) db
    = (served ++ replicate n Finished,
       Nat.iter n (fun d => fst (post_recommend engine text d)) db).
Proof.
  induction n as [| n IH]; intros k served db Hk; [done |].
  rewrite Nat.iter_succ_r. cbn [serial replicate].
  rewrite !run_next by done. rewrite step_step. cbn [fst snd].
  rewrite (cons_middle Finished served (replicate n (Start text))),
          (cons_middle Finished served (replicate n Finished)), !app_assoc.
  apply IH. rewrite length_app. simpl. lia.
Qed.

Lemma iter_recommend_count text id n :
  Strconv.Atoi text = Some (Zpos id) ->
  forall db r,
    rows db !! id = Some r ->
    GoInt.min_int <= recommend_count r ->
    recommend_count r + Z.of_nat n <= GoInt.max_int ->
    exists r',
      rows (Nat.iter n (fun d => fst (post_recommend engine text d)) db) !! id
      = Some r'
      /\ recommend_count r' = recommend_count r + Z.of_nat n.
Proof.
  intros Htext. induction n as [| n IH]; intros db r Hid Hmin Hmax.
  - exists r. split; [done | lia].
  - destruct (IH db r Hid Hmin) as (rn & Hn & Hcount); [lia |].
    rewrite Nat.iter_succ. exists (recommended rn).
    rewrite (post_recommend_found engine text id _ rn Htext Hn). simpl.
    rewrite lookup_insert_eq. split; [done |].
    rewrite incr_exact; lia.
Qed.

End ConcurrentFacts.

(** C8, as the code has it.  Served one after another (each handler's
    read and write before the next handler's read), [n] recommendations
    of an id that names a row of the table all finish and raise its count
    by exactly [n], as long as that does not pass the largest [int]. *)
Theorem serial_recommends_add_up (engine : Engine) (n : nat) (text : string)
    (id : positive) (db : DB) (r : Row) :
  Strconv.Atoi text = Some (Zpos id) ->
  rows db !! id = Some r ->
  GoInt.min_int <= recommend_count r ->
  recommend_count r + Z.of_nat n <= GoInt.max_int ->
  exists db' r',
    Concurrent.run engine (Concurrent.serial 0 n)
                   (replicate n (Concurrent.Start text)) db
    = (replicate n Concurrent.Finished, db')
    /\ rows db' !! id = Some r'
    /\ recommend_count r' = recommend_count r + Z.of_nat n.
Proof.
  intros Htext Hid Hmin Hmax.
  destruct (iter_recommend_count engine text id n Htext db r Hid Hmin Hmax)
    as (r' & Hr' & Hcount).
  exists (Nat.iter n (fun d => fst (post_recommend engine text d)) db), r'.
  split; [| done]. by apply (run_serial engine text n 0%nat []).
Qed.

(** ** Update of a missing record *)

(** A text that is a numeral too large for [strconv.Atoi] is taken for
    a condition, and that condition is true of every row. *)
Lemma First_unread_numeral engine text z db :
  Strconv.Atoi text = None ->
  Strconv.numeral text = Some z ->
  z <> 0 ->
  Gorm.First engine text db = Gorm.first_row db.
Proof.
  intros Hatoi Hnum Hz. unfold Gorm.First, Gorm.BuildCondition.
  rewrite Hatoi. destruct (String.eqb_spec text "") as [-> | _]; [done |].
  rewrite Hnum. by destruct (Z.eqb_spec z 0).
Qed.

(** Only an update is answered [NotFound], and only when its look-up
    found no row. *)
Lemma not_found_only_update engine req db text :
  snd (serve engine req db) = NotFound text ->
  exists f, req = PostUpdate text f /\ Gorm.First engine text db = None.
Proof.
  destruct req as [| f | text0 | text0 | text0 f | query | ids]; simpl.
  - done.
  - done.
  - unfold post_recommend. by destruct (Gorm.First engine text0 db).
  - done.
  - unfold post_update.
    destruct (Gorm.First engine text0 db) eqn:Hfirst; simpl; [done |].
    intros [= <-]. by exists f.
  - unfold get_search. destruct (String.eqb query ""); [done |].
    by destruct (Sqlite.too_complex _).
  - unfold post_batchdelete. by destruct (0 <? length ids)%nat.
Qed.

(** X16.  For an id that is a text [strconv.Atoi] reads and that names
    no row of the table, [POST /update/:id] answers [NotFound], which is
    not the redirect of a successful update, and leaves the database as
    it was; and whenever a request to any route is answered [NotFound],
    the request is an update whose look-up found no row. *)
Theorem update_missing_not_found (engine : Engine) (text : string) (z : Z)
    (f : Form) (db : DB) :
  Strconv.Atoi text = Some z ->
  (forall id, z = Zpos id -> rows db !! id = None) ->
  serve engine (PostUpdate text f) db = (db, NotFound text)
  /\ snd (serve engine (PostUpdate text f) db) <> Redirect
  /\ (forall req db0 text0,
        snd (serve engine req db0) = NotFound text0 ->
        exists f0,
          req = PostUpdate text0 f0 /\ Gorm.First engine text0 db0 = None).
Proof.
  intros Htext Hnone. cbn [serve].
  assert (post_update engine text f db = (db, NotFound text)) as ->.
  { destruct z as [| id | p].
    - by apply (post_update_no_key engine text 0).
    - apply (post_update_missing engine text id); [done |]. by apply Hnone.
    - by apply (post_update_no_key engine text (Zneg p)). }
  repeat split; [done |]. apply not_found_only_update.
Qed.

(** * The statements at work on the example tables *)

Section Instances.
Import Examples.

Lemma update_is_partial_witness :
  (Strconv.Atoi "1" = Some 1
   /\ rows two_spots !! 1%positive = Some (created west_lake))
  /\ exists r',
       snd (serve strict (PostUpdate "1" name_only) two_spots) = Redirect
       /\ rows (fst (serve strict (PostUpdate "1" name_only) two_spots))
            !! 1%positive
          = Some r'
       /\ patched "X" "West Lake" (name r')
       /\ patched "" "Hangzhou" (description r')
       /\ patched "" "free" (ticket r')
       /\ patched "" "bus" (transport r')
       /\ patched "" "" (image_url r').
Proof.
  split; [split; reflexivity |].
  apply (update_is_partial strict "1" 1 name_only two_spots
           (created west_lake)); reflexivity.
Defined.

(** C3 as the spec words it fails: asked for [lake], the search returns
    the record named [West Lake], in which [lake] does not occur with
    that case, neither in the name nor in the description. *)
Lemma search_matches_other_case :
  search_spots "lake" two_spots = [to_spot 1 (created west_lake)]
  /\ substring_search "lake" two_spots = []
  /\ search_spots "lake" two_spots <> substring_search "lake" two_spots.
Proof.
  split; [reflexivity |]. split; [reflexivity |].
  intros Heq. vm_compute in Heq. discriminate Heq.
Qed.

(** The wildcards of [LIKE] stay wildcards inside a query: asked for
    [%], the search returns every record, though [%] occurs in none. *)
Example search_percent_matches_all :
  search_spots "%" two_spots = list_spots two_spots
  /\ substring_search "%" two_spots = [].
Proof. split; reflexivity. Qed.

(** [LIKE] counts characters, not bytes: of the two rows of start-up
    only the first has a text of five characters or more, though each
    has one of five bytes or more. *)
Example search_counts_characters :
  ID <$> search_spots "_____" (initialize empty_db) = [1%positive]
  /\ ID <$> list_spots (initialize empty_db) = [1%positive; 2%positive].
Proof. split; reflexivity. Qed.

(** [LIKE] reads a text up to its first NUL byte: a name that begins
    with one has no character for [_] to match, and a query that is one
    NUL byte makes the pattern [%], which every row matches. *)
Example search_stops_at_nul :
  search_spots "_"
    (fst (post_add (mkForm (String (ascii_of_nat 0) "abc") "" "" "" "")
                   empty_db))
  = []
  /\ search_spots (String (ascii_of_nat 0) "") two_spots
     = list_spots two_spots.
Proof. split; reflexivity. Qed.

Lemma search_selects_from_listing_witness :
  ("LAKE" <> ""
   /\ Sqlite.too_complex ("%" +:+ "LAKE" +:+ "%") = false
   /\ Text.no_nul "LAKE" = true
   /\ Text.no_wildcard (Sqlite.chars "LAKE") = true)
  /\ search_spots "" two_spots = list_spots two_spots
  /\ search_spots "LAKE" two_spots
     = filter (fun s => name_or_description_like "LAKE" s = true)
              (list_spots two_spots)
  /\ search_spots "LAKE" two_spots = nocase_search "LAKE" two_spots.
Proof.
  destruct (search_selects_from_listing "" two_spots) as [Hempty _].
  destruct (search_selects_from_listing "LAKE" two_spots)
    as (_ & Hlike & Hnocase & _).
  split; [split; [discriminate | repeat split; reflexivity] |].
  split; [apply Hempty; reflexivity |].
  split; [apply Hlike; [discriminate | reflexivity] |].
  apply Hnocase; [discriminate | reflexivity | reflexivity | reflexivity].
Defined.

(** C4 as the spec words it fails: the count of a record that stands at
    the largest [int] is not raised by one but wraps to the smallest. *)
Lemma recommend_at_max_int_wraps :
  exists r r',
    rows saturated !! 1%positive = Some r
    /\ recommend_count r = GoInt.max_int
    /\ rows (fst (serve strict (PostRecommend "1") saturated)) !! 1%positive
       = Some r'
    /\ recommend_count r' = GoInt.min_int
    /\ recommend_count r' <> recommend_count r + 1.
Proof.
  exists (mkRow "West Lake" "Hangzhou" "free" "bus" GoInt.max_int ""),
         (mkRow "West Lake" "Hangzhou" "free" "bus" GoInt.min_int "").
  repeat split. intros Heq. vm_compute in Heq. discriminate Heq.
Qed.

Lemma recommend_adds_one_witness :
  (Strconv.Atoi "1" = Some 1
   /\ Strconv.Atoi "9" = Some 9
   /\ rows two_spots !! 1%positive = Some (created west_lake)
   /\ GoInt.min_int <= recommend_count (created west_lake) < GoInt.max_int
   /\ rows two_spots !! 9%positive = None)
  /\ (exists r',
        serve strict (PostRecommend "1") two_spots
        = (mkDB (<[1%positive := r']> (rows two_spots)) (seq two_spots),
           Redirect)
        /\ recommend_count r' = recommend_count (created west_lake) + 1)
  /\ serve strict (PostRecommend "9") two_spots = (two_spots, Redirect).
Proof.
  assert (GoInt.min_int <= recommend_count (created west_lake) < GoInt.max_int)
    as Hrange by (unfold GoInt.min_int, GoInt.max_int; simpl; lia).
  split.
  { split; [reflexivity |]. split; [reflexivity |]. split; [reflexivity |].
    split; [exact Hrange | reflexivity]. }
  split.
  - apply (proj1 (recommend_adds_one strict "1" 1 two_spots eq_refl)
             1%positive (created west_lake));
      [reflexivity | reflexivity | exact Hrange].
  - apply (proj2 (recommend_adds_one strict "9" 9 two_spots eq_refl)).
    intros id [= <-]. reflexivity.
Defined.

(** C5 fails in the code.  The table holds rows under the keys 1 and 2
    and none under 9223372036854775808, a numeral [strconv.Atoi] does not
    read.  [POST /update/9223372036854775808] with the name [X] is
    answered with the redirect of a successful update, not with
    [NotFound], and the row under key 1 has its name replaced. *)
Theorem update_too_big_rewrites_first_row (engine : Engine) :
  Strconv.Atoi too_big = None
  /\ rows two_spots !! 9223372036854775808%positive = None
  /\ serve engine (PostUpdate too_big name_only) two_spots
     = (mkDB (<[1%positive := Gorm.updated name_only (created west_lake)]>
                (rows two_spots))
             (seq two_spots),
        Redirect)
  /\ name <$> rows two_spots !! 1%positive = Some "West Lake"
  /\ name <$> rows (fst (serve engine (PostUpdate too_big name_only)
                           two_spots)) !! 1%positive
     = Some "X".
Proof. repeat split. Qed.

(** The same id makes [POST /recommend/:id] raise the count of the row
    under key 1 and [POST /delete/:id] remove every row. *)
Example too_big_recommend_and_delete (engine : Engine) :
  recommend_count <$>
    rows (fst (serve engine (PostRecommend too_big) two_spots)) !! 1%positive
  = Some 1
  /\ rows (fst (serve engine (PostDelete too_big) two_spots)) = ∅.
Proof. split; reflexivity. Qed.

Lemma update_missing_not_found_witness :
  (Strconv.Atoi "9" = Some 9 /\ rows two_spots !! 9%positive = None)
  /\ serve strict (PostUpdate "9" name_only) two_spots
     = (two_spots, NotFound "9")
  /\ snd (serve strict (PostUpdate "9" name_only) two_spots) <> Redirect
  /\ (exists f0,
        PostUpdate "9" name_only = PostUpdate "9" f0
        /\ Gorm.First strict "9" two_spots = None).
Proof.
  split; [split; reflexivity |].
  destruct (update_missing_not_found strict "9" 9 name_only two_spots eq_refl)
    as (Hanswer & Hdistinct & Honly).
  { intros id [= <-]. reflexivity. }
  split; [exact Hanswer |]. split; [exact Hdistinct |].
  apply (Honly (PostUpdate "9" name_only) two_spots "9"). reflexivity.
Defined.

(** C8 as the spec words it fails: two recommendations of key 1 whose
    reads both come before the writes finish with the count raised by
    one, not by two. *)
Lemma interleaved_recommends_lose_one :
  exists ts' db' r r',
    Concurrent.run strict [0; 1; 0; 1]%nat
                   [Concurrent.Start "1"; Concurrent.Start "1"] two_spots
    = (ts', db')
    /\ forallb Concurrent.finished ts' = true
    /\ rows two_spots !! 1%positive = Some r
    /\ rows db' !! 1%positive = Some r'
    /\ recommend_count r' = recommend_count r + 1
    /\ recommend_count r' <> recommend_count r + 2.
Proof.
  exists [Concurrent.Finished; Concurrent.Finished],
         (fst (serve strict (PostRecommend "1") two_spots)),
         (created west_lake), (recommended (created west_lake)).
  split; [vm_compute; reflexivity |].
  repeat split. intros Heq. vm_compute in Heq. discriminate Heq.
Qed.

(** A late write also lowers the count: a handler that read the count
    at 0 writes 1 after two others have raised it to 2. *)
Example stale_write_lowers_count :
  recommend_count <$>
    rows (snd (Concurrent.run strict [0; 1; 1; 2; 2]%nat
                 (replicate 3 (Concurrent.Start "1")) two_spots)) !! 1%positive
  = Some 2
  /\ recommend_count <$>
       rows (snd (Concurrent.run strict [0; 1; 1; 2; 2; 0]%nat
                    (replicate 3 (Concurrent.Start "1")) two_spots))
         !! 1%positive
     = Some 1.
Proof. split; reflexivity. Qed.

Lemma serial_recommends_add_up_witness :
  (Strconv.Atoi "1" = Some 1
   /\ rows two_spots !! 1%positive = Some (created west_lake)
   /\ GoInt.min_int <= recommend_count (created west_lake)
   /\ recommend_count (created west_lake) + Z.of_nat 3 <= GoInt.max_int)
  /\ exists db' r',
       Concurrent.run strict (Concurrent.serial 0 3)
                      (replicate 3 (Concurrent.Start "1")) two_spots
       = (replicate 3 Concurrent.Finished, db')
       /\ rows db' !! 1%positive = Some r'
       /\ recommend_count r' = recommend_count (created west_lake) + Z.of_nat 3.
Proof.
  assert (GoInt.min_int <= recommend_count (created west_lake)) as Hmin
    by (unfold GoInt.min_int; simpl; lia).
  assert (recommend_count (created west_lake) + Z.of_nat 3 <= GoInt.max_int)
    as Hmax by (unfold GoInt.max_int; simpl; lia).
  split.
  { split; [reflexivity |]. split; [reflexivity |].
    split; [exact Hmin | exact Hmax]. }
  apply (serial_recommends_add_up strict 3 "1" 1 two_spots (created west_lake));
    [reflexivity | reflexivity | exact Hmin | exact Hmax].
Defined.

(** C9 as the spec words it fails: recommending a record whose count
    stands at the largest [int] lowers the count. *)
Lemma recommend_at_max_int_lowers :
  exists r r',
    rows saturated !! 1%positive = Some r
    /\ rows (fst (serve strict (PostRecommend "1") saturated)) !! 1%positive
       = Some r'
    /\ recommend_count r' < recommend_count r.
Proof.
  exists (mkRow "West Lake" "Hangzhou" "free" "bus" GoInt.max_int ""),
         (mkRow "West Lake" "Hangzhou" "free" "bus" GoInt.min_int "").
  repeat split.
Qed.

Lemma count_never_lowered_witness :
  (plain (PostAdd huangshan)
   /\ plain (PostUpdate "1" name_only)
   /\ plain (PostRecommend "1")
   /\ rows (fst (serve strict (PostAdd huangshan) two_spots)) !! 3%positive
      = Some (created huangshan)
   /\ rows two_spots !! 3%positive = None
   /\ rows (fst (serve strict (PostUpdate "1" name_only) two_spots))
        !! 1%positive
      = Some (Gorm.updated name_only (created west_lake))
   /\ rows (fst (serve strict (PostRecommend "1") two_spots)) !! 1%positive
      = Some (recommended (created west_lake))
   /\ rows two_spots !! 1%positive = Some (created west_lake)
   /\ (forall text,
         PostUpdate "1" name_only = PostRecommend text ->
         Strconv.Atoi text <> Some 1)
   /\ recommend_count (created west_lake) < GoInt.max_int)
  /\ recommend_count (created huangshan) = 0
  /\ recommend_count (Gorm.updated name_only (created west_lake))
     = recommend_count (created west_lake)
  /\ recommend_count (created west_lake)
     <= recommend_count (recommended (created west_lake)).
Proof.
  assert (recommend_count (created west_lake) < GoInt.max_int) as Hmax
    by (unfold GoInt.max_int; simpl; lia).
  assert (plain (PostUpdate "1" name_only)) as Hupdate
    by (exists 1; reflexivity).
  assert (plain (PostRecommend "1")) as Hrecommend
    by (exists 1; reflexivity).
  assert (forall text,
            PostUpdate "1" name_only = PostRecommend text ->
            Strconv.Atoi text <> Some 1) as Hother
    by (intros text Heq; discriminate Heq).
  split.
  { split; [exact I |]. split; [exact Hupdate |]. split; [exact Hrecommend |].
    split; [reflexivity |]. split; [reflexivity |]. split; [reflexivity |].
    split; [reflexivity |]. split; [reflexivity |].
    split; [exact Hother | exact Hmax]. }
  split.
  - apply (proj1 (count_never_lowered strict (PostAdd huangshan) two_spots 3
                    (created huangshan) I eq_refl)).
    reflexivity.
  - split.
    + apply (proj2 (count_never_lowered strict (PostUpdate "1" name_only)
                      two_spots 1
                      (Gorm.updated name_only (created west_lake))
                      Hupdate eq_refl)
               (created west_lake) eq_refl).
      exact Hother.
    + apply (proj2 (count_never_lowered strict (PostRecommend "1") two_spots 1
                      (recommended (created west_lake)) Hrecommend eq_refl)
               (created west_lake) eq_refl).
      exact Hmax.
Defined.

Lemma recommend_changes_count_only_witness :
  (Strconv.Atoi "1" = Some 1
   /\ Gorm.First strict "1" two_spots = Some (to_spot 1 (created west_lake)))
  /\ exists spot',
       Gorm.First strict "1"
         (fst (serve strict (PostRecommend "1") two_spots))
       = Some spot'
       /\ ID spot' = 1%positive
       /\ Name spot' = "West Lake"
       /\ Description spot' = "Hangzhou"
       /\ Ticket spot' = "free"
       /\ Transport spot' = "bus"
       /\ ImageURL spot' = ""
       /\ delete 1%positive
            (rows (fst (serve strict (PostRecommend "1") two_spots)))
          = delete 1%positive (rows two_spots).
Proof.
  split; [split; reflexivity |].
  apply (recommend_changes_count_only strict "1" 1 two_spots
           (to_spot 1 (created west_lake))); reflexivity.
Defined.

End Instances.

(** * Further properties of the handlers *)

(** ** Delete *)

(** X1.  Let the id be a text [strconv.Atoi] reads.
    [POST /delete/:id] redirects.  Afterwards the key it names holds no
    row and every other key holds what it held; the sequence of keys is
    untouched.  Deleting an id that names no row leaves the database as
    it was, so a second delete of the same id changes nothing. *)
Theorem delete_removes_exactly (engine : Engine) (text : string) (z : Z)
    (db : DB) :
  Strconv.Atoi text = Some z ->
  snd (serve engine (PostDelete text) db) = Redirect
  /\ (forall k,
        rows (fst (serve engine (PostDelete text) db)) !! k
        = if decide (Zpos k = z) then None else rows db !! k)
  /\ seq (fst (serve engine (PostDelete text) db)) = seq db
  /\ ((forall id, z = Zpos id -> rows db !! id = None) ->
      serve engine (PostDelete text) db = (db, Redirect))
  /\ serve engine (PostDelete text) (fst (serve engine (PostDelete text) db))
     = (fst (serve engine (PostDelete text) db), Redirect).
Proof.
  intros Htext. cbn [serve]. destruct z as [| id | p].
  - rewrite !(post_delete_no_key engine text 0) by done. cbn [fst snd].
    repeat split.
  - rewrite !(post_delete_key engine text id) by done. cbn [fst snd rows seq].
    split; [done |]. split; [| split; [done |]; split].
    + intros k. case_decide as Hk.
      * injection Hk as ->. apply lookup_delete_eq.
      * apply lookup_delete_ne. congruence.
    + intros Hid. f_equal. apply DB_eq; [| done]. simpl.
      by apply delete_id, Hid.
    + f_equal. apply DB_eq; [| done]. simpl.
      apply delete_id, lookup_delete_eq.
  - rewrite !(post_delete_no_key engine text (Zneg p)) by done.
    cbn [fst snd]. repeat split.
Qed.




(** ** The listing *)

Lemma fmap_ID_scan db : ID <$> Gorm.scan db = (map_to_list (rows db)).*1.
Proof.
  unfold Gorm.scan. rewrite <- list_fmap_compose. by apply list_fmap_ext.
Qed.

Lemma fmap_entry_scan db : entry <$> Gorm.scan db = map_to_list (rows db).
Proof.
  unfold Gorm.scan. rewrite <- list_fmap_compose.
  rewrite <- (list_fmap_id (map_to_list (rows db))) at 2.
  apply list_fmap_ext. intros i [k r] _. unfold entry. simpl.
  by rewrite to_row_to_spot.
Qed.


(** X3.  The listing shows every row of the table once: no two listed
    records share an [ID], there are as many records as rows, and the
    table can be read back from the listing. *)
Theorem listing_is_the_table (db : DB) :
  NoDup (ID <$> list_spots db)
  /\ length (list_spots db) = size (rows db)
  /\ list_to_map (entry <$> list_spots db) = rows db.
Proof.
  assert (list_spots db ≡ₚ Gorm.scan db) as Hperm
    by apply Find_all_Permutation.
  split; [| split].
  - rewrite Hperm, fmap_ID_scan. apply NoDup_fst_map_to_list.
  - rewrite Hperm. unfold Gorm.scan. rewrite length_fmap.
    apply length_map_to_list.
  - transitivity (list_to_map (M := gmap positive Row) (map_to_list (rows db)));
      [| apply list_to_map_to_list].
    apply list_to_map_proper.
    + rewrite Hperm, fmap_entry_scan. apply NoDup_fst_map_to_list.
    + by rewrite Hperm, fmap_entry_scan.
Qed.



(** ** Start-up *)

Lemma initialize_populated db : rows db <> ∅ -> initialize db = db.
Proof.
  intros Hrows. unfold initialize.
  destruct (size (rows db) =? 0)%nat eqn:Hsize; [| done].
  by apply Nat.eqb_eq, map_size_empty_iff in Hsize.
Qed.

Lemma initialize_not_empty db : rows (initialize db) <> ∅.
Proof.
  unfold initialize. destruct (size (rows db) =? 0)%nat eqn:Hsize.
  - unfold Gorm.Create. simpl. apply insert_non_empty.
  - apply Nat.eqb_neq in Hsize. by rewrite map_size_empty_iff in Hsize.
Qed.

(** X5.  Start-up inserts its two rows into an empty table only: a table
    that holds a row is left as it is, an empty one holds two rows
    afterwards, the table is never empty after start-up, and a second
    start-up changes nothing. *)
Theorem initialize_seeds_once (db : DB) :
  initialize (initialize db) = initialize db
  /\ (rows db <> ∅ -> initialize db = db)
  /\ (rows db = ∅ -> size (rows (initialize db)) = 2%nat)
  /\ rows (initialize db) <> ∅.
Proof.
  split; [apply initialize_populated, initialize_not_empty |].
  split; [apply initialize_populated |].
  split; [| apply initialize_not_empty].
  intros Hrows. unfold initialize.
  rewrite (proj2 (map_size_empty_iff (rows db)) Hrows). cbn [Nat.eqb].
  set (db1 := Gorm.Create _ db). unfold Gorm.Create at 1. cbn [rows].
  rewrite map_size_insert_None by apply next_id_fresh.
  subst db1. unfold Gorm.Create. cbn [rows].
  rewrite map_size_insert_None by apply next_id_fresh.
  by rewrite Hrows, map_size_empty.
Qed.

(** ** The keys of created rows *)

(** X6.  [POST /add] stores its row under a key that is larger than
    every key in the table and than every key handed out before, and the
    add that follows gets the next key. *)
Theorem created_key_is_next (engine : Engine) (f g : Form) (db : DB) :
  rows (fst (serve engine (PostAdd f) db)) !! Gorm.next_id db
  = Some (created f)
  /\ (seq db < Npos (Gorm.next_id db))%N
  /\ (forall k r, rows db !! k = Some r -> (k < Gorm.next_id db)%positive)
  /\ rows (fst (serve engine (PostAdd g) (fst (serve engine (PostAdd f) db))))
       !! Pos.succ (Gorm.next_id db)
     = Some (created g).
Proof.
  split; [apply lookup_insert_eq |].
  split; [apply next_id_above_seq |].
  split; [apply next_id_above_keys |].
  cbn [serve]. rewrite (post_add_eq g). cbn [fst rows].
  assert (Gorm.next_id (fst (post_add f db)) = Pos.succ (Gorm.next_id db))
    as ->; [| apply lookup_insert_eq].
  rewrite post_add_eq. unfold Gorm.next_id at 1. cbn [fst rows seq].
  set (id := Gorm.next_id db).
  assert (Gorm.max_key (<[id := created f]> (rows db)) = Npos id) as ->.
  { apply N.le_antisymm.
    - apply max_key_le. intros k r Hk.
      apply lookup_insert_Some in Hk as [[<- _] | [_ Hk]]; [lia |].
      apply next_id_above_keys in Hk. fold id in Hk. lia.
    - apply (max_key_bound _ id (created f)), lookup_insert_eq. }
  rewrite N.max_id. done.
Qed.

(** ** Keys over a run of requests *)

(** A request other than an add, its id a text [strconv.Atoi] reads,
    brings no key into the table and leaves the sequence alone. *)
Lemma serve_no_new_key engine req db :
  plain req ->
  (forall f, req <> PostAdd f) ->
  seq (fst (serve engine req db)) = seq db
  /\ (forall k,
        rows db !! k = None -> rows (fst (serve engine req db)) !! k = None).
Proof.
  destruct req as [| f | text | text | text f | query | ids];
    cbn [plain]; intros Hplain Hreq; cbn [serve].
  - done.
  - by destruct (Hreq f).
  - destruct (post_recommend_plain engine text db Hplain)
      as [(id0 & r & Htext & Hid0 & ->) | ->]; [| done].
    simpl. split; [done |].
    intros k Hk. rewrite lookup_insert_ne; [done | congruence].
  - destruct (post_delete_plain engine text db Hplain)
      as [(id0 & Htext & ->) | ->]; [| done].
    simpl. split; [done |]. intros k Hk.
    destruct (decide (id0 = k)) as [-> | Hne].
    + apply lookup_delete_eq.
    + by rewrite lookup_delete_ne.
  - destruct (post_update_plain engine text f db Hplain)
      as [(id0 & r & Htext & Hid0 & ->) | ->]; [| done].
    simpl. split; [done |].
    intros k Hk. rewrite lookup_insert_ne; [done | congruence].
  - unfold get_search. destruct (String.eqb query ""); [done |].
    by destruct (Sqlite.too_complex _).
  - split.
    + unfold post_batchdelete. by destruct (0 <? length ids)%nat.
    + intros k Hk. rewrite lookup_post_batchdelete, Hk. by case_decide.
Qed.

Lemma add_or_not req :
  (exists f, req = PostAdd f) \/ (forall f, req <> PostAdd f).
Proof. destruct req; first [by right | left; by eexists]. Qed.

Lemma serve_seq_mono engine req db :
  plain req -> (seq db <= seq (fst (serve engine req db)))%N.
Proof.
  intros Hplain. destruct (add_or_not req) as [[f ->] | Hreq].
  - cbn [serve]. rewrite post_add_eq. cbn [fst seq].
    pose proof (next_id_above_seq db). lia.
  - rewrite (proj1 (serve_no_new_key engine req db Hplain Hreq)). lia.
Qed.

Lemma serve_keeps_free engine req db k :
  plain req ->
  (Npos k <= seq db)%N ->
  rows db !! k = None ->
  rows (fst (serve engine req db)) !! k = None.
Proof.
  intros Hplain Hused Hfree. destruct (add_or_not req) as [[f ->] | Hreq].
  - cbn [serve]. rewrite post_add_eq. cbn [fst rows].
    pose proof (next_id_above_seq db).
    rewrite lookup_insert_ne; [done |]. intros <-. lia.
  - by apply (proj2 (serve_no_new_key engine req db Hplain Hreq)).
Qed.

Lemma serve_keys_bounded engine req db :
  plain req -> keys_bounded db -> keys_bounded (fst (serve engine req db)).
Proof.
  intros Hplain Hdb k r. destruct (add_or_not req) as [[f ->] | Hreq].
  - cbn [serve]. rewrite post_add_eq. cbn [fst rows seq].
    pose proof (next_id_above_seq db).
    intros [[<- _] | [_ Hk]]%lookup_insert_Some; [lia |].
    apply Hdb in Hk. lia.
  - destruct (serve_no_new_key engine req db Hplain Hreq) as [-> Hnew].
    intros Hk. destruct (rows db !! k) as [r0 |] eqn:Hk0.
    + by apply (Hdb k r0).
    + by rewrite (Hnew k Hk0) in Hk.
Qed.

Lemma Create_keys_bounded r db :
  keys_bounded db -> keys_bounded (Gorm.Create r db).
Proof.
  intros Hdb k r0. unfold Gorm.Create. cbn [rows seq].
  pose proof (next_id_above_seq db).
  intros [[<- _] | [_ Hk]]%lookup_insert_Some; [lia |].
  apply Hdb in Hk. lia.
Qed.

(** X7.  No key in the table is larger than the last key handed out:
    this holds of an empty table and is kept by start-up and by every
    run of requests whose ids are texts [strconv.Atoi] reads, during
    which the last key handed out never goes down. *)
Theorem keys_stay_bounded (engine : Engine) (reqs : list Request) (db : DB)
    (s : N) :
  Forall plain reqs ->
  keys_bounded (mkDB ∅ s)
  /\ (keys_bounded db -> keys_bounded (initialize db))
  /\ (keys_bounded db -> keys_bounded (serve_all engine reqs db))
  /\ (seq db <= seq (serve_all engine reqs db))%N.
Proof.
  intros Hplain.
  split; [intros k r Hk; simpl in Hk; by rewrite lookup_empty in Hk |].
  split.
  { intros Hdb. unfold initialize.
    destruct (size (rows db) =? 0)%nat; [| done].
    by apply Create_keys_bounded, Create_keys_bounded. }
  revert db. induction Hplain as [| req reqs Hreq Hreqs IH]; intros db; [done |].
  cbn [serve_all]. destruct (IH (fst (serve engine req db))) as [Hinv Hseq].
  split.
  - intros Hdb. by apply Hinv, serve_keys_bounded.
  - pose proof (serve_seq_mono engine req db Hreq). lia.
Qed.

Lemma serve_all_keeps_free engine reqs :
  Forall plain reqs ->
  forall db k,
    (Npos k <= seq db)%N ->
    rows db !! k = None ->
    rows (serve_all engine reqs db) !! k = None.
Proof.
  induction 1 as [| req reqs Hreq Hreqs IH]; intros db k Hused Hfree; [done |].
  cbn [serve_all]. apply IH.
  - pose proof (serve_seq_mono engine req db Hreq). lia.
  - by apply serve_keeps_free.
Qed.

(** X8.  The key of a deleted row is not used again: in a table whose
    keys the sequence bounds, once [POST /delete/:id] has removed a row
    no run of later requests puts a row under its key, the ids of all
    these requests being texts [strconv.Atoi] reads. *)
Theorem deleted_key_not_reused (engine : Engine) (reqs : list Request)
    (db : DB) (text : string) (id : positive) (r : Row) :
  Strconv.Atoi text = Some (Zpos id) ->
  Forall plain reqs ->
  keys_bounded db ->
  rows db !! id = Some r ->
  rows (serve_all engine reqs (fst (serve engine (PostDelete text) db))) !! id
  = None.
Proof.
  intros Htext Hplain Hdb Hid. cbn [serve].
  rewrite (post_delete_key engine text id) by done. cbn [fst].
  apply serve_all_keeps_free; [done | |].
  - simpl. by apply (Hdb id r).
  - simpl. apply lookup_delete_eq.
Qed.

(** ** Search: letter case and wildcards *)

Section SearchFacts.
Import Sqlite.
#[local] Arguments String.append !_ _ / : simpl nomatch.

(** Lower case on bytes and on characters. *)
Lemma to_lower_byte a :
  byte (Text.to_lower a) = lower (byte a)
  /\ (byte (Text.to_lower a) =? 0)%N = (byte a =? 0)%N
  /\ is_continuation (byte (Text.to_lower a)) = is_continuation (byte a)
  /\ (byte (Text.to_lower a) <? 192)%N = (byte a <? 192)%N
  /\ (is_continuation (byte a) = true -> Text.to_lower a = a)
  /\ ((byte a <? 192)%N = false -> Text.to_lower a = a).
Proof.
  destruct a as [[] [] [] [] [] [] [] []]; vm_compute;
    repeat split; first [reflexivity | intros Hfalse; discriminate Hfalse].
Qed.

Lemma lower_above c : (128 <= c)%N -> lower c = c.
Proof.
  intros Hc. unfold lower.
  destruct (N.leb_spec c 90); [lia |]. by rewrite andb_false_r.
Qed.

Lemma finish_above c : (128 <= finish c)%N.
Proof.
  unfold finish. destruct (N.ltb_spec c 128); simpl; [lia |].
  destruct (_ || _); lia.
Qed.

Lemma finish_lower c : lower (finish c) = finish c.
Proof. apply lower_above, finish_above. Qed.

Lemma read_lower q :
  forall p, read p (Text.lower q) = lower <$> read p q.
Proof.
  induction q as [| a q IH]; intros p.
  - destruct p; simpl; [by rewrite finish_lower | done].
  - cbn [Text.lower read].
    destruct (to_lower_byte a) as (Hb & H0 & Hc & Hlt & Hcont & Hbig).
    rewrite H0, Hc, Hlt.
    destruct (byte a =? 0)%N.
    { destruct p; simpl; [by rewrite finish_lower | done]. }
    destruct (is_continuation (byte a)) eqn:Econt.
    { rewrite (Hcont eq_refl).
      destruct p as [c |]; [apply IH |].
      destruct (byte a <? 192)%N eqn:Elt.
      - rewrite fmap_cons, IH. f_equal.
        rewrite <- Hb. by rewrite (Hcont eq_refl).
      - apply IH. }
    destruct (byte a <? 192)%N eqn:Elt.
    + destruct p as [c |];
        rewrite ?fmap_cons, ?finish_lower, IH, Hb; done.
    + rewrite (Hbig eq_refl).
      destruct p as [c |]; rewrite ?fmap_cons, ?finish_lower, IH; done.
Qed.

Lemma chars_lower q : chars (Text.lower q) = lower <$> chars q.
Proof. apply read_lower. Qed.

Lemma lower_cases c :
  ((65 <= c <= 90)%N /\ lower c = (c + 32)%N)
  \/ (~ (65 <= c <= 90)%N /\ lower c = c).
Proof.
  unfold lower.
  destruct (N.leb_spec 65 c), (N.leb_spec c 90); simpl;
    first [left; split; [lia | done] | right; split; [lia | done]].
Qed.

Lemma lower_eq_iff c k :
  (k < 65 \/ 90 < k < 97 \/ 122 < k)%N -> (lower c =? k)%N = (c =? k)%N.
Proof.
  intros Hk. destruct (lower_cases c) as [[Hc ->] | [Hc ->]]; [| done].
  destruct (N.eqb_spec (c + 32) k), (N.eqb_spec c k); first [done | lia].
Qed.

Lemma same_char_lower c d : same_char (lower c) d = same_char c d.
Proof.
  unfold same_char. apply eq_iff_eq_true.
  rewrite !orb_true_iff, !andb_true_iff, !N.eqb_eq, !N.ltb_lt.
  destruct (lower_cases c) as [[Hc Hlc] | [Hc Hlc]];
    destruct (lower_cases d) as [[Hd Hld] | [Hd Hld]];
    destruct (lower_cases (lower c)) as [[Hcc Hlcc] | [Hcc Hlcc]];
    rewrite ?Hlcc, ?Hld, ?Hlc in *; lia.
Qed.

(** A pattern matches what its lower-case form matches. *)
Lemma like_chars_lower pat :
  forall s, like_chars (lower <$> pat) s = like_chars pat s.
Proof.
  induction pat as [| c pat IH]; intros s; [done |].
  rewrite fmap_cons. cbn [like_chars].
  rewrite (lower_eq_iff c percent) by (unfold percent; lia).
  destruct (c =? percent)%N.
  - by apply any_suffix_ext.
  - destruct s as [| d s]; [done |].
    rewrite (lower_eq_iff c underscore) by (unfold underscore; lia).
    by rewrite same_char_lower, IH.
Qed.

Lemma lower_app s t : Text.lower (s +:+ t) = Text.lower s +:+ Text.lower t.
Proof. induction s as [| c s IH]; simpl; [done | by rewrite IH]. Qed.

Lemma length_lower_app s t :
  String.length (Text.lower s +:+ t) = String.length (s +:+ t).
Proof. induction s as [| c s IH]; simpl; [done | by rewrite IH]. Qed.

Lemma lower_empty q : Text.lower q = "" <-> q = "".
Proof. by destruct q. Qed.

Lemma like_lower q s :
  like ("%" +:+ Text.lower q +:+ "%") s = like ("%" +:+ q +:+ "%") s.
Proof.
  unfold like.
  change ("%" +:+ Text.lower q +:+ "%")
    with (Text.lower "%" +:+ Text.lower q +:+ Text.lower "%").
  by rewrite <- !lower_app, chars_lower, like_chars_lower.
Qed.

Lemma too_complex_lower q :
  too_complex ("%" +:+ Text.lower q +:+ "%")
  = too_complex ("%" +:+ q +:+ "%").
Proof.
  unfold too_complex.
  change ("%" +:+ Text.lower q +:+ "%")
    with (String "%" (Text.lower q +:+ "%")).
  change ("%" +:+ q +:+ "%") with (String "%" (q +:+ "%")).
  cbn [String.length]. by rewrite length_lower_app.
Qed.

(** A pattern made of [%] matches from any place on. *)
Lemma like_chars_all_percent q :
  Text.all_percent q = true ->
  forall s, any_suffix (like_chars (read None q)) s = true.
Proof.
  induction q as [| a q IH]; intros Hq s.
  - apply like_chars_end.
  - simpl in Hq. apply andb_true_iff in Hq as [Ha Hq].
    apply Ascii.eqb_eq in Ha. subst a.
    change (read None (String "%" q)) with (percent :: read None q).
    apply any_suffix_here. cbn [like_chars].
    change (percent =? percent)%N with true. cbn iota. by apply IH.
Qed.

Lemma all_percent_app q t :
  Text.all_percent q = true -> Text.all_percent t = true ->
  Text.all_percent (q +:+ t) = true.
Proof.
  induction q as [| a q IH]; simpl; [done |].
  intros [Ha Hq]%andb_true_iff Ht. rewrite Ha. by apply IH.
Qed.

Lemma like_all_percent q s :
  Text.all_percent q = true -> like ("%" +:+ q +:+ "%") s = true.
Proof.
  intros Hq. unfold like, chars.
  change ("%" +:+ q +:+ "%") with (String "%" (q +:+ "%")).
  change (read None (String "%" (q +:+ "%")))
    with (percent :: read None (q +:+ "%")).
  cbn [like_chars]. change (percent =? percent)%N with true. cbn iota.
  apply like_chars_all_percent. by apply all_percent_app.
Qed.

Lemma read_pending c s : read (Some c) s <> [].
Proof.
  revert c. induction s as [| a s IH]; intros c; simpl; [done |].
  destruct (byte a =? 0)%N; [done |].
  destruct (is_continuation (byte a)); [apply IH |].
  by destruct (byte a <? 192)%N.
Qed.

(** A text has a character to read when it has a first byte other than
    NUL. *)
Lemma chars_has_char s :
  Text.has_char s = match chars s with [] => false | _ :: _ => true end.
Proof.
  destruct s as [| a s]; [done |]. unfold chars. simpl.
  destruct (byte a =? 0)%N; [done |]. simpl.
  destruct (byte a <? 192)%N; [done |].
  pose proof (read_pending (trans1 (byte a)) s).
  by destruct (read _ s).
Qed.

Lemma like_underscore s : like "%_%" s = Text.has_char s.
Proof.
  rewrite chars_has_char. unfold like.
  change (chars "%_%") with [percent; underscore; percent].
  destruct (chars s) as [| d t]; [done |].
  change (like_chars [percent; underscore; percent] (d :: t))
    with (any_suffix (like_chars []) t
          || any_suffix (like_chars [underscore; percent]) t).
  by rewrite like_chars_end.
Qed.

End SearchFacts.

(** X9.  The search does not tell upper case from lower case in the
    query: a query and its lower-case form return the same records. *)
Theorem search_ignores_query_case (query : string) (db : DB) :
  search_spots (Text.lower query) db = search_spots query db.
Proof.
  destruct (decide (query = "")) as [-> | Hq]; [done |].
  unfold search_spots, get_search. rewrite too_complex_lower.
  destruct (String.eqb_spec (Text.lower query) "") as [Hl | _];
    [destruct Hq; by apply lower_empty |].
  destruct (String.eqb_spec query "") as [| _]; [done |].
  destruct (Sqlite.too_complex _); [done |]. cbn [snd spots_of].
  apply Find_ext. intros s. unfold name_or_description_like.
  by rewrite !like_lower.
Qed.

(** X10.  The handler does not escape the wildcards of [LIKE] in the
    query.  A query made of [%] only, short enough for [LIKE], returns
    the whole listing, also the records whose name and description are
    empty; the query [_] returns the records whose name or description
    has a first character: is not empty and does not begin with a NUL
    byte. *)
Theorem search_wildcards_not_escaped (query : string) (db : DB) :
  (query <> "" ->
   Sqlite.too_complex ("%" +:+ query +:+ "%") = false ->
   Text.all_percent query = true ->
   search_spots query db = list_spots db)
  /\ search_spots "_" db
     = filter (fun s => Text.has_char (Name s)
                        || Text.has_char (Description s) = true)
              (list_spots db).
Proof.
  split.
  - intros Hq Hlen Hall. rewrite search_spots_nonempty by done.
    apply Find_ext. intros s. unfold name_or_description_like, all_rows.
    by rewrite !like_all_percent.
  - rewrite search_spots_nonempty by done. rewrite Find_filter.
    apply list_filter_iff. intros s. unfold name_or_description_like.
    change ("%" +:+ "_" +:+ "%") with "%_%".
    by rewrite !like_underscore.
Qed.

(** ** Update, once more *)

Lemma assign_idem new old :
  Gorm.assign new (Gorm.assign new old) = Gorm.assign new old.
Proof. unfold Gorm.assign. by destruct (String.eqb new ""). Qed.

Lemma updated_idem f r : Gorm.updated f (Gorm.updated f r) = Gorm.updated f r.
Proof. unfold Gorm.updated. simpl. by rewrite !assign_idem. Qed.

Lemma updated_empty_form r : Gorm.updated empty_form r = r.
Proof. by destruct r. Qed.

(** X11.  For an id that is the numeral of a key, an update that
    supplies no field changes nothing in the database, and an update
    sent twice leaves the database the first one left. *)
Theorem update_empty_or_repeated (engine : Engine) (text : string)
    (id : positive) (f : Form) (db : DB) :
  Strconv.Atoi text = Some (Zpos id) ->
  (forall r,
     rows db !! id = Some r ->
     serve engine (PostUpdate text empty_form) db = (db, Redirect))
  /\ fst (serve engine (PostUpdate text f)
            (fst (serve engine (PostUpdate text f) db)))
     = fst (serve engine (PostUpdate text f) db).
Proof.
  intros Htext. cbn [serve]. split.
  - intros r Hid.
    rewrite (post_update_found engine text id empty_form db r Htext Hid).
    f_equal. apply DB_eq; [| done]. simpl.
    rewrite updated_empty_form. by apply insert_id.
  - destruct (rows db !! id) as [r |] eqn:Hid.
    + rewrite (post_update_found engine text id f db r Htext Hid). cbn [fst].
      rewrite (post_update_found engine text id f _ (Gorm.updated f r) Htext)
        by apply lookup_insert_eq.
      cbn [fst rows seq]. by rewrite insert_insert_eq, updated_idem.
    + rewrite (post_update_missing engine text id f db Htext Hid). cbn [fst].
      by rewrite (post_update_missing engine text id f db Htext Hid).
Qed.

(** X12.  For an id that names a row of the table, [POST /update/:id]
    rewrites the row under that key and nothing else: the count of the
    row stays, the table holds the same keys, every other row and the
    sequence of keys are as before. *)
Theorem update_touches_one_row (engine : Engine) (text : string)
    (id : positive) (f : Form) (db : DB) (r : Row) :
  Strconv.Atoi text = Some (Zpos id) ->
  rows db !! id = Some r ->
  exists r',
    rows (fst (serve engine (PostUpdate text f) db)) = <[id := r']> (rows db)
    /\ recommend_count r' = recommend_count r
    /\ dom (rows (fst (serve engine (PostUpdate text f) db))) = dom (rows db)
    /\ delete id (rows (fst (serve engine (PostUpdate text f) db)))
       = delete id (rows db)
    /\ seq (fst (serve engine (PostUpdate text f) db)) = seq db.
Proof.
  intros Htext Hid. exists (Gorm.updated f r). cbn [serve].
  rewrite (post_update_found engine text id f db r Htext Hid).
  cbn [fst rows seq].
  split; [done |]. split; [done |]. split; [| split; [| done]].
  - by apply dom_insert_lookup_L.
  - apply delete_insert_eq.
Qed.

(** ** Recommend and delete, composed *)

Lemma lookup_post_recommend engine text z db k :
  Strconv.Atoi text = Some z ->
  rows (fst (post_recommend engine text db)) !! k
  = if decide (Zpos k = z) then recommended <$> rows db !! k
    else rows db !! k.
Proof.
  intros Htext. destruct z as [| id | p].
  - by rewrite (post_recommend_no_key engine text 0).
  - destruct (rows db !! id) as [r |] eqn:Hid.
    + rewrite (post_recommend_found engine text id db r Htext Hid). simpl.
      case_decide as Hk.
      * injection Hk as ->. by rewrite lookup_insert_eq, Hid.
      * rewrite lookup_insert_ne; [done | congruence].
    + rewrite (post_recommend_missing engine text id db Htext Hid). simpl.
      case_decide as Hk; [| done]. injection Hk as ->. by rewrite Hid.
  - by rewrite (post_recommend_no_key engine text (Zneg p)).
Qed.

Lemma seq_post_recommend engine text db :
  is_Some (Strconv.Atoi text) ->
  seq (fst (post_recommend engine text db)) = seq db.
Proof.
  intros Hplain.
  by destruct (post_recommend_plain engine text db Hplain)
    as [(id & r & _ & _ & ->) | ->].
Qed.

(** X13.  Recommendations served one at a time do not depend on their
    order: for ids that are texts [strconv.Atoi] reads, recommending [a]
    then [b] leaves the database that recommending [b] then [a]
    leaves. *)
Theorem recommends_commute (engine : Engine) (a b : string) (db : DB) :
  is_Some (Strconv.Atoi a) ->
  is_Some (Strconv.Atoi b) ->
  fst (serve engine (PostRecommend a) (fst (serve engine (PostRecommend b) db)))
  = fst (serve engine (PostRecommend b)
           (fst (serve engine (PostRecommend a) db))).
Proof.
  intros Ha Hb. cbn [serve].
  apply DB_eq; [| by rewrite !seq_post_recommend].
  destruct Ha as [za Ha], Hb as [zb Hb].
  apply map_eq. intros k.
  rewrite (lookup_post_recommend engine a za _ k Ha),
          (lookup_post_recommend engine b zb _ k Hb),
          (lookup_post_recommend engine b zb _ k Hb),
          (lookup_post_recommend engine a za _ k Ha).
  by destruct (decide (Zpos k = za)), (decide (Zpos k = zb)).
Qed.

(** X14.  A deleted record is gone for the other handlers: after
    [POST /delete/:id], the id being the numeral of a key, an update of
    that id is answered [NotFound], a recommendation of it changes
    nothing, and the listing does not show the key. *)
Theorem deleted_record_is_gone (engine : Engine) (text : string)
    (id : positive) (f : Form) (db : DB) :
  Strconv.Atoi text = Some (Zpos id) ->
  serve engine (PostUpdate text f) (fst (serve engine (PostDelete text) db))
  = (fst (serve engine (PostDelete text) db), NotFound text)
  /\ serve engine (PostRecommend text)
       (fst (serve engine (PostDelete text) db))
     = (fst (serve engine (PostDelete text) db), Redirect)
  /\ id ∉ ID <$> list_spots (fst (serve engine (PostDelete text) db)).
Proof.
  intros Htext.
  assert (rows (fst (serve engine (PostDelete text) db)) !! id = None)
    as Hgone.
  { cbn [serve]. rewrite (post_delete_key engine text id) by done.
    apply lookup_delete_eq. }
  split; [by apply (post_update_missing engine text id) |].
  split; [by apply (post_recommend_missing engine text id) |].
  intros (s & -> & Hs)%list_elem_of_fmap.
  unfold list_spots, get_index in Hs. cbn [snd spots_of] in Hs.
  apply elem_of_Find in Hs as [_ Hs]. congruence.
Qed.

(** ** Recommendations under any schedule *)

Section InterleavingFacts.
Import Concurrent.
Context (engine : Engine).
Context (id : positive) (lo hi : Z) (n : nat).
Context (Hlo : GoInt.min_int <= lo) (Hhi : hi <= GoInt.max_int).

Lemma task_ok_mono p p' t :
  (p' <= p)%nat -> task_ok id lo hi p t -> task_ok id lo hi p' t.
Proof. destruct t; simpl; [done | | done]. intros Hp (? & ? & ?). lia. Qed.

(** Replacing a task changes the number of pending tasks by the
    difference of the two. *)
Lemma pending_insert ts i t t' :
  ts !! i = Some t ->
  (pending (<[i := t']> ts) + (if finished t then 0 else 1)
   = pending ts + (if finished t' then 0 else 1))%nat.
Proof.
  revert i. induction ts as [| u ts IH]; intros [| i] Hi; simpl in *.
  - done.
  - done.
  - injection Hi as ->. lia.
  - specialize (IH i Hi). lia.
Qed.

Lemma pending_finished ts : forallb finished ts = true -> pending ts = 0%nat.
Proof.
  induction ts as [| t ts IH]; [done |]. simpl.
  intros [Ht Hts]%andb_true_iff. rewrite Ht, IH; done.
Qed.

(** One database call of one task keeps the state. *)
Lemma step_recommending ts db i t :
  recommending id lo hi n ts db ->
  ts !! i = Some t ->
  recommending id lo hi n (<[i := fst (step engine t db)]> ts)
               (snd (step engine t db)).
Proof.
  intros [Hts (r & Hid & Hlow & Hroom & Hone)] Hi.
  pose proof (Forall_lookup_1 _ _ _ _ Hts Hi) as Ht.
  pose proof (pending_insert ts i t (fst (step engine t db)) Hi) as Hp.
  destruct t as [text | spot |]; simpl in Ht.
  - unfold step in *. rewrite (First_key engine text id db Ht), Hid in *.
    simpl in *. unfold recommending.
    assert (pending (<[i := Loaded (to_spot id r)]> ts) = pending ts)
      as -> by lia.
    split; [| by exists r].
    apply Forall_insert; [done |]. simpl. done.
  - destruct Ht as (Hspot & Hl & Hh). simpl in *.
    assert (pending ts = S (pending (<[i := Finished]> ts))) as Hpend by lia.
    assert (GoInt.incr (RecommendCount spot) = RecommendCount spot + 1)
      as Hincr by (apply incr_exact; lia).
    unfold recommending. split.
    + apply Forall_insert; [| done].
      apply (Forall_impl _ _ _ Hts). intros u. apply task_ok_mono. lia.
    + exists (to_row (incr_recommend spot)). unfold Gorm.Save. simpl.
      rewrite Hspot, Hid. simpl. rewrite lookup_insert_eq. simpl.
      rewrite Hincr. repeat split; [lia | lia | lia].
  - simpl in *. unfold recommending.
    assert (pending (<[i := Finished]> ts) = pending ts) as -> by lia.
    split; [by apply Forall_insert | by exists r].
Qed.

Lemma run_recommending sched :
  forall ts db,
    recommending id lo hi n ts db ->
    recommending id lo hi n (fst (run engine sched ts db))
                 (snd (run engine sched ts db)).
Proof.
  induction sched as [| i sched IH]; intros ts db Hinv; [done |].
  cbn [run]. destruct (ts !! i) as [t |] eqn:Hi; [| by apply IH].
  pose proof (step_recommending ts db i t Hinv Hi) as Hstep.
  destruct (step engine t db) as [t' db']. by apply IH.
Qed.

End InterleavingFacts.

Lemma pending_replicate_Start n text :
  pending (replicate n (Concurrent.Start text)) = n.
Proof. induction n as [| n IH]; simpl; [done | by rewrite IH]. Qed.

(** X15.  However the database calls of [n] recommendations of one
    record alternate, and however far the schedule has got, the count is
    never below the count at the start and never above it by more than
    [n]; once all have finished, at least one of them has counted.
    (The counts are taken to stay within the [int] range.) *)
Theorem interleaved_recommends_bounded (engine : Engine) (sched : list nat)
    (n : nat) (text : string) (id : positive) (db : DB) (r : Row) :
  Strconv.Atoi text = Some (Zpos id) ->
  rows db !! id = Some r ->
  GoInt.min_int <= recommend_count r ->
  recommend_count r + Z.of_nat n <= GoInt.max_int ->
  exists r',
    rows (snd (Concurrent.run engine sched
                 (replicate n (Concurrent.Start text)) db))
      !! id = Some r'
    /\ recommend_count r <= recommend_count r' <= recommend_count r + Z.of_nat n
    /\ (forallb Concurrent.finished
          (fst (Concurrent.run engine sched
                  (replicate n (Concurrent.Start text)) db))
        = true ->
        (0 < n)%nat ->
        recommend_count r + 1 <= recommend_count r').
Proof.
  intros Htext Hid Hmin Hmax.
  assert (recommending id (recommend_count r) (recommend_count r + Z.of_nat n)
            n (replicate n (Concurrent.Start text)) db) as Hinit.
  { unfold recommending. rewrite pending_replicate_Start. split.
    - by apply Forall_replicate.
    - exists r. repeat split; [done | lia | lia | lia]. }
  apply (run_recommending engine id _ _ n Hmin Hmax sched) in Hinit
    as [_ (r' & Hr' & Hlow & Hroom & Hone)].
  exists r'. split; [done |]. split; [lia |].
  intros Hfin Hn. apply pending_finished in Hfin.
  rewrite Hfin in Hone. apply Hone. lia.
Qed.

(** * The further statements at work on the example tables *)

Section MoreInstances.
Import Examples.

Lemma two_spots_keys_bounded : keys_bounded two_spots.
Proof.
  apply (serve_keys_bounded strict (PostAdd huangshan) _ I),
        (serve_keys_bounded strict (PostAdd west_lake) _ I).
  intros k r Hk. simpl in Hk. by rewrite lookup_empty in Hk.
Qed.

Lemma delete_removes_exactly_witness :
  (Strconv.Atoi "9" = Some 9 /\ rows two_spots !! 9%positive = None)
  /\ serve strict (PostDelete "9") two_spots = (two_spots, Redirect).
Proof.
  split; [split; reflexivity |].
  destruct (delete_removes_exactly strict "9" 9 two_spots eq_refl)
    as (_ & _ & _ & Hmissing & _).
  apply Hmissing. intros id [= <-]. reflexivity.
Defined.



Lemma initialize_seeds_once_witness :
  (rows two_spots <> ∅ /\ rows empty_db = ∅)
  /\ initialize two_spots = two_spots
  /\ size (rows (initialize empty_db)) = 2%nat.
Proof.
  assert (rows two_spots <> ∅) as Hfull.
  { intros Hempty.
    assert (rows two_spots !! 1%positive = None) as Hone
      by (rewrite Hempty; apply lookup_empty).
    vm_compute in Hone. discriminate Hone. }
  split; [split; [exact Hfull | reflexivity] |].
  split.
  - apply (proj1 (proj2 (initialize_seeds_once two_spots))). exact Hfull.
  - apply (proj1 (proj2 (proj2 (initialize_seeds_once empty_db)))).
    reflexivity.
Defined.

Lemma created_key_is_next_witness :
  rows two_spots !! 2%positive = Some (created huangshan)
  /\ (2 < Gorm.next_id two_spots)%positive.
Proof.
  split; [reflexivity |].
  destruct (created_key_is_next strict west_lake huangshan two_spots)
    as (_ & _ & Habove & _).
  apply (Habove 2%positive (created huangshan)). reflexivity.
Defined.

Lemma keys_stay_bounded_witness :
  Forall plain [PostAdd west_lake; PostDelete "1"]
  /\ keys_bounded empty_db
  /\ keys_bounded (initialize empty_db)
  /\ keys_bounded (serve_all strict [PostAdd west_lake; PostDelete "1"]
                     empty_db).
Proof.
  assert (Forall plain [PostAdd west_lake; PostDelete "1"]) as Hplain.
  { constructor; [exact I |]. constructor; [| constructor].
    exists 1. reflexivity. }
  split; [exact Hplain |].
  destruct (keys_stay_bounded strict [PostAdd west_lake; PostDelete "1"]
              empty_db 0 Hplain)
    as (Hempty & Hinit & Hrun & _).
  split; [exact Hempty |].
  split; [apply Hinit; exact Hempty | apply Hrun; exact Hempty].
Defined.

Lemma deleted_key_not_reused_witness :
  (Strconv.Atoi "2" = Some 2
   /\ Forall plain [PostAdd west_lake; PostRecommend "2"]
   /\ keys_bounded two_spots
   /\ rows two_spots !! 2%positive = Some (created huangshan))
  /\ rows (serve_all strict [PostAdd west_lake; PostRecommend "2"]
             (fst (serve strict (PostDelete "2") two_spots))) !! 2%positive
     = None.
Proof.
  assert (Forall plain [PostAdd west_lake; PostRecommend "2"]) as Hplain.
  { constructor; [exact I |]. constructor; [| constructor].
    exists 2. reflexivity. }
  split.
  { split; [reflexivity |]. split; [exact Hplain |].
    split; [exact two_spots_keys_bounded | reflexivity]. }
  apply (deleted_key_not_reused strict [PostAdd west_lake; PostRecommend "2"]
           two_spots "2" 2 (created huangshan));
    [reflexivity | exact Hplain | exact two_spots_keys_bounded | reflexivity].
Defined.

Lemma search_wildcards_not_escaped_witness :
  ("%%" <> ""
   /\ Sqlite.too_complex ("%" +:+ "%%" +:+ "%") = false
   /\ Text.all_percent "%%" = true)
  /\ search_spots "%%" two_spots = list_spots two_spots.
Proof.
  split; [split; [discriminate | split; reflexivity] |].
  apply (proj1 (search_wildcards_not_escaped "%%" two_spots));
    [discriminate | reflexivity | reflexivity].
Defined.

Lemma update_empty_or_repeated_witness :
  (Strconv.Atoi "1" = Some 1
   /\ rows two_spots !! 1%positive = Some (created west_lake))
  /\ serve strict (PostUpdate "1" empty_form) two_spots
     = (two_spots, Redirect).
Proof.
  split; [split; reflexivity |].
  apply (proj1 (update_empty_or_repeated strict "1" 1 empty_form two_spots
                  eq_refl)
           (created west_lake)).
  reflexivity.
Defined.

Lemma update_touches_one_row_witness :
  (Strconv.Atoi "1" = Some 1
   /\ rows two_spots !! 1%positive = Some (created west_lake))
  /\ exists r',
       rows (fst (serve strict (PostUpdate "1" name_only) two_spots))
       = <[1%positive := r']> (rows two_spots)
       /\ recommend_count r' = recommend_count (created west_lake)
       /\ dom (rows (fst (serve strict (PostUpdate "1" name_only) two_spots)))
          = dom (rows two_spots)
       /\ delete 1%positive
            (rows (fst (serve strict (PostUpdate "1" name_only) two_spots)))
          = delete 1%positive (rows two_spots)
       /\ seq (fst (serve strict (PostUpdate "1" name_only) two_spots))
          = seq two_spots.
Proof.
  split; [split; reflexivity |].
  apply (update_touches_one_row strict "1" 1 name_only two_spots
           (created west_lake)); reflexivity.
Defined.

Lemma recommends_commute_witness :
  (is_Some (Strconv.Atoi "1") /\ is_Some (Strconv.Atoi "2"))
  /\ fst (serve strict (PostRecommend "1")
            (fst (serve strict (PostRecommend "2") two_spots)))
     = fst (serve strict (PostRecommend "2")
              (fst (serve strict (PostRecommend "1") two_spots))).
Proof.
  assert (is_Some (Strconv.Atoi "1")) as Hone by (exists 1; reflexivity).
  assert (is_Some (Strconv.Atoi "2")) as Htwo by (exists 2; reflexivity).
  split; [split; [exact Hone | exact Htwo] |].
  apply (recommends_commute strict "1" "2" two_spots Hone Htwo).
Defined.

Lemma deleted_record_is_gone_witness :
  Strconv.Atoi "1" = Some 1
  /\ serve strict (PostUpdate "1" name_only)
       (fst (serve strict (PostDelete "1") two_spots))
     = (fst (serve strict (PostDelete "1") two_spots), NotFound "1")
  /\ serve strict (PostRecommend "1")
       (fst (serve strict (PostDelete "1") two_spots))
     = (fst (serve strict (PostDelete "1") two_spots), Redirect)
  /\ 1%positive
     ∉ ID <$> list_spots (fst (serve strict (PostDelete "1") two_spots)).
Proof.
  split; [reflexivity |].
  exact (deleted_record_is_gone strict "1" 1 name_only two_spots eq_refl).
Defined.

Lemma interleaved_recommends_bounded_witness :
  (Strconv.Atoi "1" = Some 1
   /\ rows two_spots !! 1%positive = Some (created west_lake)
   /\ GoInt.min_int <= recommend_count (created west_lake)
   /\ recommend_count (created west_lake) + Z.of_nat 2 <= GoInt.max_int
   /\ forallb Concurrent.finished
        (fst (Concurrent.run strict [0; 1; 0; 1]%nat
                (replicate 2 (Concurrent.Start "1")) two_spots))
      = true)
  /\ exists r',
       rows (snd (Concurrent.run strict [0; 1; 0; 1]%nat
                    (replicate 2 (Concurrent.Start "1")) two_spots))
         !! 1%positive = Some r'
       /\ recommend_count (created west_lake) <= recommend_count r'
          <= recommend_count (created west_lake) + Z.of_nat 2
       /\ recommend_count (created west_lake) + 1 <= recommend_count r'.
Proof.
  assert (GoInt.min_int <= recommend_count (created west_lake)) as Hmin
    by (unfold GoInt.min_int; simpl; lia).
  assert (recommend_count (created west_lake) + Z.of_nat 2 <= GoInt.max_int)
    as Hmax by (unfold GoInt.max_int; simpl; lia).
  split.
  { split; [reflexivity |]. split; [reflexivity |]. split; [exact Hmin |].
    split; [exact Hmax | reflexivity]. }
  destruct (interleaved_recommends_bounded strict [0; 1; 0; 1]%nat 2 "1" 1
              two_spots (created west_lake) eq_refl eq_refl Hmin Hmax)
    as (r' & Hr' & Hbounds & Hone).
  exists r'. split; [exact Hr' |]. split; [exact Hbounds |].
  apply Hone; [reflexivity | lia].
Defined.

End MoreInstances.
